(** * WHERE-clause lowering of the CQL executor (yb/ql/exec/eval_where.cc)

    A shallow embedding of [Executor::WhereClauseToPB] (write and read
    overloads) and of its helpers [WhereOpToPB], [WhereSubColOpToPB] and
    [FuncOpToPB], followed by the properties of the lowering.

    The request messages are mutated in place by the C++ code; here every
    statement is a function from the state before it to the state after
    it.  A statement can fall through, leave its loop ([break]), make the
    function return a [Status], or abort the process ([LOG(FATAL)],
    [CHECK]); the type [Flow] records which. *)

From Stdlib Require Import ZArith List String Bool Lia.
Import ListNotations.
Local Open Scope Z_scope.

Set Implicit Arguments.
Set Warnings "-register-all".

(** ** Statuses and control flow *)

Inductive Status : Type :=
| OK
| NotOK (msg : string).

Definition ok (st : Status) : bool :=
  match st with OK => true | NotOK _ => false end.

Inductive Flow (S : Type) : Type :=
| Continue (s : S)
| Break (s : S)
| Return (st : Status) (s : S)
| Abort (msg : string).

Arguments Continue {S} s.
Arguments Break {S} s.
Arguments Return {S} st s.
Arguments Abort {S} msg.

(** What a call of the function leaves behind: a status together with the
    caller's objects as mutated so far, or a dead process. *)
Inductive Outcome (S : Type) : Type :=
| Returned (st : Status) (s : S)
| Fatal (msg : string).

Arguments Returned {S} st s.
Arguments Fatal {S} msg.

(** [for (const auto& x : l) body] *)
Fixpoint for_each {A S : Type} (body : A -> S -> Flow S) (l : list A) (s : S)
  : Flow S :=
  match l with
  | [] => Continue s
  | x :: rest =>
      match body x s with
      | Continue s' => for_each body rest s'
      | other => other
      end
  end.

(** The statement that follows a loop sees a [break] as a normal exit. *)
Definition after_loop {S : Type} (f : Flow S) : Flow S :=
  match f with
  | Break s => Continue s
  | other => other
  end.

(** The state a statement leaves, when the process survives it. *)
Definition flow_state {S : Type} (f : Flow S) : option S :=
  match f with
  | Continue s | Break s | Return _ s => Some s
  | Abort _ => None
  end.

(** ** Messages

    Modelled from the spec: the message types are generated from a schema
    outside this file.  The fields are those the lowering touches: the
    requests' [hashed_column_values], [range_column_values],
    [column_values], [hash_code], [max_hash_code] and [where_expr], and the
    expression and condition trees below them.  A protobuf [oneof] is an
    inductive type whose first constructor is the unset case; a getter on
    another case returns the default instance, an optional scalar is an
    [option], a repeated field is a list. *)

Inductive QLOperator : Type :=
| QL_OP_NOOP
| QL_OP_AND
| QL_OP_EQUAL
| QL_OP_LESS_THAN
| QL_OP_LESS_THAN_EQUAL
| QL_OP_GREATER_THAN
| QL_OP_GREATER_THAN_EQUAL
| QL_OP_IN.

Definition is_QL_OP_IN (o : QLOperator) : bool :=
  match o with QL_OP_IN => true | _ => false end.

Inductive QLValuePB : Type :=
| VALUE_NOT_SET
| int64_value (z : Z)
| string_value (s : string)
| list_value (elems : list QLValuePB).

(** [v.int64_value()] *)
Definition get_int64_value (v : QLValuePB) : Z :=
  match v with int64_value z => z | _ => 0 end.

(** [v.list_value().elems()] *)
Definition list_value_elems (v : QLValuePB) : list QLValuePB :=
  match v with list_value elems => elems | _ => [] end.

Inductive QLExpressionPB : Type :=
| EXPR_NOT_SET
| value (v : QLValuePB)
| column_id (id : Z)
| subscripted_col (id : Z) (subscript_args : list QLExpressionPB)
| bind_id (id : Z)
| condition (c : QLConditionPB)
| bfcall (opcode : Z) (operands : list QLExpressionPB)
with QLConditionPB : Type :=
| Build_QLConditionPB (op : QLOperator) (operands : list QLExpressionPB).

Definition op (c : QLConditionPB) : QLOperator :=
  match c with Build_QLConditionPB o _ => o end.

Definition operands (c : QLConditionPB) : list QLExpressionPB :=
  match c with Build_QLConditionPB _ l => l end.

(** A condition as [add_operands()->mutable_condition()] first hands it out. *)
Definition empty_condition : QLConditionPB := Build_QLConditionPB QL_OP_NOOP [].

Definition set_op (o : QLOperator) (c : QLConditionPB) : QLConditionPB :=
  Build_QLConditionPB o (operands c).

Definition add_operands (e : QLExpressionPB) (c : QLConditionPB) : QLConditionPB :=
  Build_QLConditionPB (op c) (operands c ++ [e]).

(** [e.value()] *)
Definition get_value (e : QLExpressionPB) : QLValuePB :=
  match e with value v => v | _ => VALUE_NOT_SET end.

(** [e->mutable_condition()] on an optional expression field: the condition
    already there is kept, anything else is replaced by an empty one. *)
Definition mutable_condition (e : option QLExpressionPB) : QLConditionPB :=
  match e with
  | Some (condition c) => c
  | _ => empty_condition
  end.

Record QLColumnValuePB : Type := {
  cv_column_id : Z;
  cv_subscript_args : list QLExpressionPB;
  cv_expr : option QLExpressionPB
}.

Record QLWriteRequestPB : Type := {
  w_hashed_column_values : list QLExpressionPB;
  w_range_column_values : list QLExpressionPB;
  w_column_values : list QLColumnValuePB
}.

Record QLReadRequestPB : Type := {
  hashed_column_values : list QLExpressionPB;
  hash_code : option Z;
  max_hash_code : option Z;
  where_expr : option QLExpressionPB
}.

(** A freshly allocated request of each kind. *)
Definition new_write_request : QLWriteRequestPB :=
  {| w_hashed_column_values := []; w_range_column_values := [];
     w_column_values := [] |}.

Definition new_read_request : QLReadRequestPB :=
  {| hashed_column_values := []; hash_code := None; max_hash_code := None;
     where_expr := None |}.

Definition add_hashed_column_values (e : QLExpressionPB) (r : QLReadRequestPB)
  : QLReadRequestPB :=
  {| hashed_column_values := hashed_column_values r ++ [e];
     hash_code := hash_code r; max_hash_code := max_hash_code r;
     where_expr := where_expr r |}.

Definition clear_hashed_column_values (r : QLReadRequestPB) : QLReadRequestPB :=
  {| hashed_column_values := [];
     hash_code := hash_code r; max_hash_code := max_hash_code r;
     where_expr := where_expr r |}.

Definition set_hash_code (h : Z) (r : QLReadRequestPB) : QLReadRequestPB :=
  {| hashed_column_values := hashed_column_values r;
     hash_code := Some h; max_hash_code := max_hash_code r;
     where_expr := where_expr r |}.

Definition set_max_hash_code (h : Z) (r : QLReadRequestPB) : QLReadRequestPB :=
  {| hashed_column_values := hashed_column_values r;
     hash_code := hash_code r; max_hash_code := Some h;
     where_expr := where_expr r |}.

Definition set_where_condition (c : QLConditionPB) (r : QLReadRequestPB)
  : QLReadRequestPB :=
  {| hashed_column_values := hashed_column_values r;
     hash_code := hash_code r; max_hash_code := max_hash_code r;
     where_expr := Some (condition c) |}.

(** ** Column descriptors *)

(** Modelled from the spec: the declaration of [ColumnDesc] is outside this
    file; a descriptor is a stable integer identifier plus a role tag, and
    the role partitions the schema.  The two predicates the lowering calls
    read the tag: hash columns are primary-key columns too. *)
Inductive ColumnRole : Type :=
| HASH
| RANGE
| REGULAR.

Record ColumnDesc : Type := {
  id : Z;
  role : ColumnRole
}.

Definition is_hash (d : ColumnDesc) : bool :=
  match role d with HASH => true | _ => false end.

Definition is_primary (d : ColumnDesc) : bool :=
  match role d with HASH | RANGE => true | REGULAR => false end.

(** Modelled from the spec: [YBPartition::kMaxHashCode] is declared outside
    this file; hash codes are unsigned 16-bit with [MAX_HASH = 0xFFFF]. *)
Definition kMaxHashCode : Z := 65535.

(** Conversion of a result to [uint16_t]. *)
Definition to_uint16 (z : Z) : Z := z mod 65536.

(** ** Collaborators

    The lowering calls three functions that live outside this file: the
    expression translator [Executor::PTExprToPB], the constant folder
    [YQLExpression::Evaluate] (always called on an empty table row with the
    default write action) and the token mapping
    [YBPartition::CqlToYBHashCode].  The embedding is parametric in them.

    [PTExprToPB e] is the pair of the status of the call and of what the
    call leaves in the output slot; every slot this file passes is a fresh
    one. *)

Class Collaborators : Type := {
  PTExpr : Type;
  PTExprToPB : PTExpr -> Status * QLExpressionPB;
  Evaluate : QLExpressionPB -> Status * QLValuePB;
  CqlToYBHashCode : Z -> Z
}.

Section Lowering.

Context {X : Collaborators}.

(** *** Analyzed operations *)

Record ColumnOp : Type := {
  desc : ColumnDesc;
  yb_op : QLOperator;
  expr : PTExpr
}.

Record SubscriptedColumnOp : Type := {
  sc_desc : ColumnDesc;
  sc_args : list PTExpr;
  sc_yb_op : QLOperator;
  sc_expr : PTExpr
}.

Record FuncOp : Type := {
  value_expr : PTExpr;
  func_expr : PTExpr;
  fn_yb_op : QLOperator
}.

Record PartitionKeyOp : Type := {
  pk_yb_op : QLOperator;
  pk_expr : PTExpr
}.

(** [RETURN_NOT_OK(call)], with [s] the state the call leaves. *)
Definition RETURN_NOT_OK {S : Type} (st : Status) (s : S) : Flow S :=
  if ok st then Continue s else Return st s.

(** Sequencing of two statements over the same state. *)
Definition and_then {S : Type} (f : Flow S) (k : S -> Flow S) : Flow S :=
  match after_loop f with
  | Continue s => k s
  | other => other
  end.

(** The end of a function body whose last statement is
    [return Status::OK()]. *)
Definition finish {S : Type} (f : Flow S) : Outcome S :=
  match f with
  | Continue s | Break s => Returned OK s
  | Return st s => Returned st s
  | Abort msg => Fatal msg
  end.

(** [for (auto& arg : args) RETURN_NOT_OK(PTExprToPB(arg, add_subscript_args()))],
    started with the slots [acc] already present. *)
Fixpoint lower_subscript_args (args : list PTExpr) (acc : list QLExpressionPB)
  : Status * list QLExpressionPB :=
  match args with
  | [] => (OK, acc)
  | arg :: rest =>
      let (st, e) := PTExprToPB arg in
      if ok st then lower_subscript_args rest (acc ++ [e])
      else (st, acc ++ [e])
  end.

(** *** Write path, lines 25-58 *)

Definition add_w_hashed_column_values (e : QLExpressionPB) (r : QLWriteRequestPB)
  : QLWriteRequestPB :=
  {| w_hashed_column_values := w_hashed_column_values r ++ [e];
     w_range_column_values := w_range_column_values r;
     w_column_values := w_column_values r |}.

Definition add_w_range_column_values (e : QLExpressionPB) (r : QLWriteRequestPB)
  : QLWriteRequestPB :=
  {| w_hashed_column_values := w_hashed_column_values r;
     w_range_column_values := w_range_column_values r ++ [e];
     w_column_values := w_column_values r |}.

Definition add_column_values (c : QLColumnValuePB) (r : QLWriteRequestPB)
  : QLWriteRequestPB :=
  {| w_hashed_column_values := w_hashed_column_values r;
     w_range_column_values := w_range_column_values r;
     w_column_values := w_column_values r ++ [c] |}.

(** Body of the loop of lines 30-41. *)
Definition WriteKeyOp (op : ColumnOp) (req : QLWriteRequestPB)
  : Flow QLWriteRequestPB :=
  if is_hash (desc op) then
    let (st, col_expr_pb) := PTExprToPB (expr op) in
    RETURN_NOT_OK st (add_w_hashed_column_values col_expr_pb req)
  else if is_primary (desc op) then
    let (st, col_expr_pb) := PTExprToPB (expr op) in
    RETURN_NOT_OK st (add_w_range_column_values col_expr_pb req)
  else
    Abort "Unexpected non primary key column in this context".

(** Body of the loop of lines 46-55. *)
Definition WriteSubColOp (op : SubscriptedColumnOp) (req : QLWriteRequestPB)
  : Flow QLWriteRequestPB :=
  let (st, args_pb) := lower_subscript_args (sc_args op) [] in
  if ok st then
    let (st', expr_pb) := PTExprToPB (sc_expr op) in
    RETURN_NOT_OK st'
      (add_column_values
         {| cv_column_id := id (sc_desc op); cv_subscript_args := args_pb;
            cv_expr := Some expr_pb |} req)
  else
    Return st
      (add_column_values
         {| cv_column_id := id (sc_desc op); cv_subscript_args := args_pb;
            cv_expr := None |} req).

Definition WhereClauseToPB_write (req : QLWriteRequestPB)
    (key_where_ops : list ColumnOp) (where_ops : list ColumnOp)
    (subcol_where_ops : list SubscriptedColumnOp)
  : Outcome QLWriteRequestPB :=
  finish
    (and_then (for_each WriteKeyOp key_where_ops req) (fun req1 =>
       match where_ops with
       | [] => for_each WriteSubColOp subcol_where_ops req1
       | _ :: _ => Abort "Check failed: where_ops.empty() Server doesn't support range operation yet"
       end)).

(** *** Condition builders, lines 168-214

    Each returns its status and the condition as the call leaves it. *)

Definition WhereOpToPB (col_op : ColumnOp) : Status * QLConditionPB :=
  let condition0 := set_op (yb_op col_op) empty_condition in
  let condition1 := add_operands (column_id (id (desc col_op))) condition0 in
  let (st, expr_pb) := PTExprToPB (expr col_op) in
  (st, add_operands expr_pb condition1).

Definition WhereSubColOpToPB (col_op : SubscriptedColumnOp)
  : Status * QLConditionPB :=
  let condition0 := set_op (sc_yb_op col_op) empty_condition in
  let (st, args_pb) := lower_subscript_args (sc_args col_op) [] in
  let condition1 :=
    add_operands (subscripted_col (id (sc_desc col_op)) args_pb) condition0 in
  if ok st then
    let (st', expr_pb) := PTExprToPB (sc_expr col_op) in
    (st', add_operands expr_pb condition1)
  else (st, condition1).

Definition FuncOpToPB (func_op : FuncOp) : Status * QLConditionPB :=
  let condition0 := set_op (fn_yb_op func_op) empty_condition in
  let (st, call_pb) := PTExprToPB (func_expr func_op) in
  let condition1 := add_operands call_pb condition0 in
  if ok st then
    let (st', expr_pb) := PTExprToPB (value_expr func_op) in
    (st', add_operands expr_pb condition1)
  else (st, condition1).

(** *** Read path, lines 60-166 *)

(** The caller's objects the read overload writes to. *)
Record ReadState : Type := {
  req : QLReadRequestPB;
  no_results : bool
}.

Definition with_req (f : QLReadRequestPB -> QLReadRequestPB) (s : ReadState)
  : ReadState :=
  {| req := f (req s); no_results := no_results s |}.

Definition set_no_results (b : bool) (s : ReadState) : ReadState :=
  {| req := req s; no_results := b |}.

(** The [switch] of lines 81-111, for an op whose right-hand side has been
    folded to [hash]. *)
Definition ApplyTokenBound (o : QLOperator) (hash : Z) (s : ReadState)
  : Flow ReadState :=
  match o with
  | QL_OP_GREATER_THAN =>
      if negb (hash =? kMaxHashCode) then
        Continue (with_req (set_hash_code (hash + 1)) s)
      else
        Return OK (set_no_results true s)
  | QL_OP_GREATER_THAN_EQUAL =>
      Continue (with_req (set_hash_code hash) s)
  | QL_OP_LESS_THAN =>
      Continue (with_req (set_max_hash_code hash) s)
  | QL_OP_LESS_THAN_EQUAL =>
      if negb (hash =? kMaxHashCode) then
        Continue (with_req (set_max_hash_code (hash + 1)) s)
      else
        Continue s
  | QL_OP_EQUAL =>
      let s1 := with_req (set_hash_code hash) s in
      if negb (hash =? kMaxHashCode) then
        Continue (with_req (set_max_hash_code (hash + 1)) s1)
      else
        Continue s1
  | _ => Abort "Unsupported operator for token-based partition key condition"
  end.

(** Body of the loop of lines 71-112. *)
Definition TokenOp (op : PartitionKeyOp) (s : ReadState) : Flow ReadState :=
  let (st, expr_pb) := PTExprToPB (pk_expr op) in
  if ok st then
    let (st', result) := Evaluate expr_pb in
    if ok st' then
      ApplyTokenBound (pk_yb_op op)
        (to_uint16 (CqlToYBHashCode (get_int64_value result))) s
    else Return st' s
  else Return st s.

(** Body of the loop of lines 116-140; the second component of the state is
    the local [key_ops_are_set]. *)
Definition ReadKeyOp (op : ColumnOp) (ks : ReadState * bool)
  : Flow (ReadState * bool) :=
  let (s, key_ops_are_set) := ks in
  if is_hash (desc op) then
    let (st, col_pb) := PTExprToPB (expr op) in
    let s1 := with_req (add_hashed_column_values col_pb) s in
    if ok st then
      if is_QL_OP_IN (yb_op op) then
        match list_value_elems (get_value col_pb) with
        | [] => Return OK (set_no_results true s1, key_ops_are_set)
        | [value_pb] =>
            (* the slot just added now holds its own first element *)
            Continue (with_req (add_hashed_column_values (value value_pb)) s,
                      key_ops_are_set)
        | _ :: _ :: _ =>
            Break (with_req clear_hashed_column_values s1, false)
        end
      else Continue (s1, key_ops_are_set)
    else Return st (s1, key_ops_are_set)
  else
    Abort "Check failed: col_desc->is_hash() Unexpected non partition column in this context".

(** One [RETURN_NOT_OK(ToPB(where_pb->add_operands()->mutable_condition(), x))]. *)
Definition AddOperand {A : Type} (ToPB : A -> Status * QLConditionPB) (x : A)
    (where_pb : QLConditionPB) : Flow QLConditionPB :=
  let (st, c) := ToPB x in
  RETURN_NOT_OK st (add_operands (condition c) where_pb).

(** Lines 148-163, on the condition of [where_expr]. *)
Definition BuildWhere (key_ops_are_set : bool)
    (key_where_ops where_ops : list ColumnOp)
    (subcol_where_ops : list SubscriptedColumnOp) (func_ops : list FuncOp)
    (where_pb : QLConditionPB) : Flow QLConditionPB :=
  and_then
    (if negb key_ops_are_set
     then for_each (AddOperand WhereOpToPB) key_where_ops (set_op QL_OP_AND where_pb)
     else Continue (set_op QL_OP_AND where_pb)) (fun w1 =>
  and_then (for_each (AddOperand WhereOpToPB) where_ops w1) (fun w2 =>
  and_then (for_each (AddOperand WhereSubColOpToPB) subcol_where_ops w2) (fun w3 =>
  for_each (AddOperand FuncOpToPB) func_ops w3))).

Definition is_nil {A : Type} (l : list A) : bool :=
  match l with [] => true | _ :: _ => false end.

(** Lines 142-165. *)
Definition WhereStage (key_ops_are_set : bool)
    (key_where_ops where_ops : list ColumnOp)
    (subcol_where_ops : list SubscriptedColumnOp) (func_ops : list FuncOp)
    (s : ReadState) : Outcome ReadState :=
  if key_ops_are_set && is_nil where_ops && is_nil subcol_where_ops
     && is_nil func_ops
  then Returned OK s
  else
    match BuildWhere key_ops_are_set key_where_ops where_ops subcol_where_ops
            func_ops (mutable_condition (where_expr (req s))) with
    | Continue w | Break w => Returned OK (with_req (set_where_condition w) s)
    | Return st w => Returned st (with_req (set_where_condition w) s)
    | Abort msg => Fatal msg
    end.

(** The token loop, lines 71-112. *)
Definition TokenStage (partition_key_ops : list PartitionKeyOp) (s : ReadState)
  : Flow ReadState :=
  for_each TokenOp partition_key_ops s.

(** The key loop, lines 115-140. *)
Definition KeyStage (key_where_ops : list ColumnOp) (s : ReadState)
  : Flow (ReadState * bool) :=
  for_each ReadKeyOp key_where_ops (s, true).

(** Line 68: the caller's [*no_results] is overwritten on entry, so its old
    value is no input. *)
Definition on_entry (req0 : QLReadRequestPB) : ReadState :=
  {| req := req0; no_results := false |}.

(** The read overload; [req0] is the caller's request. *)
Definition WhereClauseToPB_read (req0 : QLReadRequestPB)
    (key_where_ops where_ops : list ColumnOp)
    (subcol_where_ops : list SubscriptedColumnOp)
    (partition_key_ops : list PartitionKeyOp) (func_ops : list FuncOp)
  : Outcome ReadState :=
  match TokenStage partition_key_ops (on_entry req0) with
  | Continue s1 | Break s1 =>
      match KeyStage key_where_ops s1 with
      | Continue (s2, key_ops_are_set) | Break (s2, key_ops_are_set) =>
          WhereStage key_ops_are_set key_where_ops where_ops subcol_where_ops
            func_ops s2
      | Return st (s2, _) => Returned st s2
      | Abort msg => Fatal msg
      end
  | Return st s1 => Returned st s1
  | Abort msg => Fatal msg
  end.

End Lowering.

Arguments ColumnOp {X}.
Arguments SubscriptedColumnOp {X}.
Arguments FuncOp {X}.
Arguments PartitionKeyOp {X}.

(** ** Vocabulary of the properties *)

Section Vocabulary.

Context {X : Collaborators}.

(** The right-hand side of a token op lowers and folds, without error, to
    the hash code [v]: lines 72-78. *)
Definition folds_to (op : PartitionKeyOp) (v : Z) : Prop :=
  exists expr_pb result,
    PTExprToPB (pk_expr op) = (OK, expr_pb) /\
    Evaluate expr_pb = (OK, result) /\
    v = to_uint16 (CqlToYBHashCode (get_int64_value result)).

(** The translator accepts [e]; [lowered e] is what it writes. *)
Definition lowers (e : PTExpr) : Prop := fst (PTExprToPB e) = OK.

Definition lowered (e : PTExpr) : QLExpressionPB := snd (PTExprToPB e).

(** [col_pb->value().list_value().elems()] of a lowered key op, line 124. *)
Definition in_elems (op : ColumnOp) : list QLValuePB :=
  list_value_elems (get_value (lowered (expr op))).

(** A key op is an [IN] whose lowered list has no element, resp. two or
    more. *)
Definition empty_IN (op : ColumnOp) : Prop :=
  yb_op op = QL_OP_IN /\ in_elems op = [].

Definition multi_valued_IN (op : ColumnOp) : Prop :=
  yb_op op = QL_OP_IN /\ (2 <= List.length (in_elems op))%nat.

(** What the key loop leaves in the slot of a key op it passes. *)
Definition key_slot (op : ColumnOp) : QLExpressionPB :=
  if is_QL_OP_IN (yb_op op) then
    match in_elems op with
    | [value_pb] => value value_pb
    | _ => lowered (expr op)
    end
  else lowered (expr op).

(** The binary comparison condition of a column op: column id, comparator,
    lowered right-hand side. *)
Definition comparison (op : ColumnOp) : QLExpressionPB :=
  condition
    (Build_QLConditionPB (yb_op op)
       [column_id (id (desc op)); lowered (expr op)]).

(** The bounds a token op with hash [v] writes, if any. *)
Definition lower_bound (o : QLOperator) (v : Z) : option Z :=
  match o with
  | QL_OP_GREATER_THAN => if v =? kMaxHashCode then None else Some (v + 1)
  | QL_OP_GREATER_THAN_EQUAL | QL_OP_EQUAL => Some v
  | _ => None
  end.

Definition upper_bound (o : QLOperator) (v : Z) : option Z :=
  match o with
  | QL_OP_LESS_THAN => Some v
  | QL_OP_LESS_THAN_EQUAL | QL_OP_EQUAL =>
      if v =? kMaxHashCode then None else Some (v + 1)
  | _ => None
  end.

(** Every lower bound a token op of the list writes is below every upper
    bound one of them writes. *)
Definition bounds_consistent (ops : list PartitionKeyOp) : Prop :=
  forall op1 op2 v1 v2 lo hi,
    In op1 ops -> In op2 ops ->
    folds_to op1 v1 -> folds_to op2 v2 ->
    lower_bound (pk_yb_op op1) v1 = Some lo ->
    upper_bound (pk_yb_op op2) v2 = Some hi ->
    lo < hi.

(** The emitted interval is ordered, or the result is declared empty. *)
Definition interval_ordered_or_empty (s : ReadState) : Prop :=
  (forall lo hi,
      hash_code (req s) = Some lo -> max_hash_code (req s) = Some hi ->
      lo < hi)
  \/ no_results s = true.

(** The operands the residual builder appends, in order. *)
Definition residual_operands (key_ops_are_set : bool)
    (key_where_ops where_ops : list ColumnOp)
    (subcol_where_ops : list SubscriptedColumnOp) (func_ops : list FuncOp)
  : list QLExpressionPB :=
  (if key_ops_are_set then [] else map comparison key_where_ops)
  ++ map comparison where_ops
  ++ map (fun o => condition (snd (WhereSubColOpToPB o))) subcol_where_ops
  ++ map (fun o => condition (snd (FuncOpToPB o))) func_ops.

(** Every expression the residual builder lowers is accepted. *)
Definition residual_lowers (key_ops_are_set : bool)
    (key_where_ops where_ops : list ColumnOp)
    (subcol_where_ops : list SubscriptedColumnOp) (func_ops : list FuncOp)
  : Prop :=
  (key_ops_are_set = false -> Forall (fun o => lowers (expr o)) key_where_ops)
  /\ Forall (fun o => lowers (expr o)) where_ops
  /\ Forall (fun o => fst (WhereSubColOpToPB o) = OK) subcol_where_ops
  /\ Forall (fun o => fst (FuncOpToPB o) = OK) func_ops.

End Vocabulary.

(** ** A concrete set of collaborators

    Modelled from the spec: analyzed expressions, their translator, the
    constant folder and the token mapping are declared outside this file.
    The spec asks of the translator that it handles literals, function calls
    and bind markers and that it may fail, of the folder that it folds
    constants, and of the token mapping that it is total and deterministic;
    its scenarios give token comparisons by their hash code.  This instance
    has integer and collection literals, a [token] call, and bind markers,
    which it leaves unbound: lowering one fails.  A token is its own hash
    code. *)

Module Literals.

Inductive Expr : Type :=
| Const (z : Z)
| Collection (elems : list Z)
| TokenCall (column : Z)
| BindVar (pos : Z).

Definition ToPB (e : Expr) : Status * QLExpressionPB :=
  match e with
  | Const z => (OK, value (int64_value z))
  | Collection elems => (OK, value (list_value (map int64_value elems)))
  | TokenCall column => (OK, bfcall 0 [column_id column])
  | BindVar pos => (NotOK "Bind variable has no value", bind_id pos)
  end.

Definition Fold (e : QLExpressionPB) : Status * QLValuePB :=
  match e with
  | value v => (OK, v)
  | _ => (NotOK "Not a constant expression", VALUE_NOT_SET)
  end.

Definition collaborators : Collaborators :=
  {| PTExpr := Expr; PTExprToPB := ToPB; Evaluate := Fold;
     CqlToYBHashCode := fun token => token |}.

Definition h1 : ColumnDesc := {| id := 1; role := HASH |}.
Definition h2 : ColumnDesc := {| id := 2; role := HASH |}.
Definition r1 : ColumnDesc := {| id := 3; role := RANGE |}.
Definition c1 : ColumnDesc := {| id := 4; role := REGULAR |}.

Definition col (d : ColumnDesc) (o : QLOperator) (e : Expr)
  : ColumnOp (X := collaborators) :=
  @Build_ColumnOp collaborators d o e.

Definition token (o : QLOperator) (v : Z)
  : PartitionKeyOp (X := collaborators) :=
  @Build_PartitionKeyOp collaborators o (Const v).

Definition read (key_where_ops where_ops : list ColumnOp)
    (subcol_where_ops : list SubscriptedColumnOp)
    (partition_key_ops : list (PartitionKeyOp (X := collaborators)))
    (func_ops : list FuncOp) : Outcome ReadState :=
  WhereClauseToPB_read new_read_request key_where_ops where_ops
    subcol_where_ops partition_key_ops func_ops.

End Literals.

(** ** Vocabulary of the further properties *)

Section Shapes.

Context {X : Collaborators}.

(** Every argument and the right-hand side of a subscripted-column op are
    accepted by the translator; likewise both sides of a function op. *)
Definition subcol_lowers (o : SubscriptedColumnOp) : Prop :=
  Forall lowers (sc_args o) /\ lowers (sc_expr o).

Definition func_lowers (o : FuncOp) : Prop :=
  lowers (func_expr o) /\ lowers (value_expr o).

(** The comparison of a subscripted-column op: the column with its lowered
    subscripts on the left, the lowered right-hand side on the right. *)
Definition subcol_comparison (o : SubscriptedColumnOp) : QLExpressionPB :=
  condition
    (Build_QLConditionPB (sc_yb_op o)
       [subscripted_col (id (sc_desc o)) (map lowered (sc_args o));
        lowered (sc_expr o)]).

(** The comparison of a function op: the lowered call, then the lowered
    value. *)
Definition func_comparison (o : FuncOp) : QLExpressionPB :=
  condition
    (Build_QLConditionPB (fn_yb_op o)
       [lowered (func_expr o); lowered (value_expr o)]).

(** The [column_values] entry of a subscripted-column op on the write
    path. *)
Definition column_value (o : SubscriptedColumnOp) : QLColumnValuePB :=
  {| cv_column_id := id (sc_desc o);
     cv_subscript_args := map lowered (sc_args o);
     cv_expr := Some (lowered (sc_expr o)) |}.

(** The operators the [switch] of the token loop has a case for. *)
Definition token_operator (o : QLOperator) : bool :=
  match o with
  | QL_OP_GREATER_THAN | QL_OP_GREATER_THAN_EQUAL | QL_OP_LESS_THAN
  | QL_OP_LESS_THAN_EQUAL | QL_OP_EQUAL => true
  | _ => false
  end.

(** A condition with exactly two operands. *)
Definition binary_comparison (e : QLExpressionPB) : Prop :=
  exists o lhs rhs, e = condition (Build_QLConditionPB o [lhs; rhs]).

(** A status one of the collaborators gave on some call. *)
Definition from_collaborator (st : Status) : Prop :=
  (exists e, fst (PTExprToPB e) = st)
  \/ (exists pb, fst (Evaluate pb) = st).

(** The hash and the range key ops of a list, in order. *)
Definition hash_ops (ops : list ColumnOp) : list ColumnOp :=
  filter (fun o => is_hash (desc o)) ops.

Definition range_ops (ops : list ColumnOp) : list ColumnOp :=
  filter (fun o => negb (is_hash (desc o))) ops.

End Shapes.

(** * Properties *)

Unset Implicit Arguments.

(** ** Loops *)

Lemma for_each_app {A S : Type} (body : A -> S -> Flow S) (l1 l2 : list A)
    (s : S) :
  for_each body (l1 ++ l2) s =
  match for_each body l1 s with
  | Continue s' => for_each body l2 s'
  | other => other
  end.
Proof.
  revert s; induction l1 as [|x l1 IH]; intros s; simpl.
  - reflexivity.
  - destruct (body x s); auto.
Qed.

Lemma for_each_invariant {A S : Type} (body : A -> S -> Flow S)
    (P : S -> Prop) :
  (forall x s s', P s -> flow_state (body x s) = Some s' -> P s') ->
  forall l s s', P s -> flow_state (for_each body l s) = Some s' -> P s'.
Proof.
  intros Hbody l; induction l as [|x l IH]; intros s s' Hs; simpl.
  - intros [= <-]; exact Hs.
  - destruct (body x s) as [s1|s1|st s1|msg] eqn:E; simpl.
    + apply IH. apply (Hbody x s s1 Hs). rewrite E; reflexivity.
    + intros [= <-]. apply (Hbody x s s1 Hs). rewrite E; reflexivity.
    + intros [= <-]. apply (Hbody x s s1 Hs). rewrite E; reflexivity.
    + discriminate.
Qed.

(** ** The token loop *)

Section TokenBounds.

Context {X : Collaborators}.

Lemma folds_to_functional (op : PartitionKeyOp) (v w : Z) :
  folds_to op v -> folds_to op w -> v = w.
Proof.
  intros (e & r & He & Hr & ->) (e' & r' & He' & Hr' & ->).
  rewrite He in He'; injection He' as <-.
  rewrite Hr in Hr'; injection Hr' as <-.
  reflexivity.
Qed.

Lemma TokenOp_folded (op : PartitionKeyOp) (v : Z) (s : ReadState) :
  folds_to op v -> TokenOp op s = ApplyTokenBound (pk_yb_op op) v s.
Proof.
  intros (e & r & He & Hr & ->).
  unfold TokenOp. rewrite He; simpl. rewrite Hr; simpl. reflexivity.
Qed.

(** A token op either folds, or makes the function return the error with
    the state untouched. *)
Lemma TokenOp_cases (op : PartitionKeyOp) (s : ReadState) :
  (exists v, folds_to op v /\ TokenOp op s = ApplyTokenBound (pk_yb_op op) v s)
  \/ (exists st, ok st = false /\ TokenOp op s = Return st s).
Proof.
  unfold TokenOp, folds_to.
  destruct (PTExprToPB (pk_expr op)) as [st e] eqn:He.
  destruct st as [|msg]; simpl.
  - destruct (Evaluate e) as [st' r] eqn:Hr.
    destruct st' as [|msg]; simpl.
    + left. eexists; split; [|reflexivity]. exists e, r. auto.
    + right. exists (NotOK msg). auto.
  - right. exists (NotOK msg). auto.
Qed.

Lemma kMax_test (v : Z) :
  (v =? kMaxHashCode) = true <-> v = kMaxHashCode.
Proof. apply Z.eqb_eq. Qed.

(** The bounds after one [switch] are the ones [lower_bound] and
    [upper_bound] name, or the old ones; nothing else of the request
    changes. *)
Lemma ApplyTokenBound_state (o : QLOperator) (v : Z) (s s' : ReadState) :
  flow_state (ApplyTokenBound o v s) = Some s' ->
  hash_code (req s') =
    match lower_bound o v with Some lo => Some lo | None => hash_code (req s) end
  /\ max_hash_code (req s') =
    match upper_bound o v with Some hi => Some hi | None => max_hash_code (req s) end
  /\ hashed_column_values (req s') = hashed_column_values (req s)
  /\ where_expr (req s') = where_expr (req s).
Proof.
  destruct o; simpl; try discriminate;
    destruct (v =? kMaxHashCode); simpl; intros [= <-]; simpl; auto.
Qed.

Lemma TokenOp_state (op : PartitionKeyOp) (s s' : ReadState) :
  flow_state (TokenOp op s) = Some s' ->
  (hash_code (req s') = hash_code (req s)
   \/ exists v lo, folds_to op v /\ lower_bound (pk_yb_op op) v = Some lo
                   /\ hash_code (req s') = Some lo)
  /\ (max_hash_code (req s') = max_hash_code (req s)
      \/ exists v hi, folds_to op v /\ upper_bound (pk_yb_op op) v = Some hi
                      /\ max_hash_code (req s') = Some hi)
  /\ hashed_column_values (req s') = hashed_column_values (req s)
  /\ where_expr (req s') = where_expr (req s).
Proof.
  destruct (TokenOp_cases op s) as [(v & Hv & ->)|(st & _ & ->)].
  - intros H. apply ApplyTokenBound_state in H as (Hlo & Hhi & Hh & Hw).
    repeat split; auto.
    + destruct (lower_bound (pk_yb_op op) v) as [lo|] eqn:E; eauto 6.
    + destruct (upper_bound (pk_yb_op op) v) as [hi|] eqn:E; eauto 6.
  - simpl; intros [= <-]. auto.
Qed.

(** Where the bounds of the request come from, after the token loop. *)
Lemma TokenStage_bounds (ops : list PartitionKeyOp) (s s' : ReadState) :
  flow_state (TokenStage ops s) = Some s' ->
  (hash_code (req s') = hash_code (req s)
   \/ exists op v lo, In op ops /\ folds_to op v
                      /\ lower_bound (pk_yb_op op) v = Some lo
                      /\ hash_code (req s') = Some lo)
  /\ (max_hash_code (req s') = max_hash_code (req s)
      \/ exists op v hi, In op ops /\ folds_to op v
                         /\ upper_bound (pk_yb_op op) v = Some hi
                         /\ max_hash_code (req s') = Some hi).
Proof.
  unfold TokenStage. revert s.
  induction ops as [|op ops IH]; intros s; simpl.
  - intros [= <-]; auto.
  - pose proof (TokenOp_state op s) as Hstep.
    destruct (TokenOp op s) as [s1|s1|st s1|msg]; simpl in *.
    2,3: intros [= <-];
         destruct (Hstep s1 eq_refl) as (Hlo & Hhi & _); split;
         [destruct Hlo as [Hlo|(v & lo & ? & ? & ?)]
         |destruct Hhi as [Hhi|(v & hi & ? & ? & ?)]];
         try (left; assumption); right; exists op; eauto 8.
    2: discriminate.
    intros H. specialize (IH s1 H) as (IHlo & IHhi).
    destruct (Hstep s1 eq_refl) as (Hlo & Hhi & _). split.
    + destruct IHlo as [IHlo|(op' & v & lo & ? & ? & ? & ?)].
      * rewrite IHlo. destruct Hlo as [Hlo|(v & lo & ? & ? & ?)];
          [left; assumption | right; exists op; eauto 8].
      * right; exists op'; eauto 8.
    + destruct IHhi as [IHhi|(op' & v & hi & ? & ? & ? & ?)].
      * rewrite IHhi. destruct Hhi as [Hhi|(v & hi & ? & ? & ?)];
          [left; assumption | right; exists op; eauto 8].
      * right; exists op'; eauto 8.
Qed.

Lemma TokenStage_frame (ops : list PartitionKeyOp) (s s' : ReadState) :
  flow_state (TokenStage ops s) = Some s' ->
  hashed_column_values (req s') = hashed_column_values (req s)
  /\ where_expr (req s') = where_expr (req s).
Proof.
  unfold TokenStage.
  apply (for_each_invariant TokenOp
           (fun t => hashed_column_values (req t) = hashed_column_values (req s)
                     /\ where_expr (req t) = where_expr (req s))); auto.
  intros op t t' (Hh & Hw) H.
  apply TokenOp_state in H as (_ & _ & Hh' & Hw'). split; congruence.
Qed.

Lemma TokenStage_never_breaks (ops : list PartitionKeyOp) (s s' : ReadState) :
  TokenStage ops s <> Break s'.
Proof.
  unfold TokenStage. revert s; induction ops as [|op ops IH]; intros s; simpl.
  - discriminate.
  - destruct (TokenOp_cases op s) as [(v & _ & E)|(st & _ & E)]; rewrite E.
    + destruct (pk_yb_op op); simpl; try discriminate;
        destruct (v =? kMaxHashCode); simpl; try discriminate; apply IH.
    + discriminate.
Qed.

(** The token loop leaves [no_results] alone when it falls through, and
    returns [OK] early only with [no_results] set. *)
Lemma TokenStage_no_results (ops : list PartitionKeyOp) (s : ReadState) :
  match TokenStage ops s with
  | Continue s' => no_results s' = no_results s
  | Return OK s' => no_results s' = true
  | _ => True
  end.
Proof.
  unfold TokenStage. revert s; induction ops as [|op ops IH]; intros s; simpl.
  - reflexivity.
  - destruct (TokenOp_cases op s) as [(v & _ & E)|(st & Hst & E)]; rewrite E.
    + destruct (pk_yb_op op); simpl; auto;
        destruct (v =? kMaxHashCode); simpl; auto;
        match goal with |- context [for_each TokenOp ops ?t] =>
          specialize (IH t); destruct (for_each TokenOp ops t) as [| |[|]|];
          simpl in *; auto end.
    + destruct st; [discriminate | exact I].
Qed.

End TokenBounds.

(** ** The key loop *)

Section KeyBinding.

Context {X : Collaborators}.

Lemma lowers_ok (e : PTExpr) : lowers e <-> ok (fst (PTExprToPB e)) = true.
Proof.
  unfold lowers. destruct (fst (PTExprToPB e)); simpl; split;
    intros; congruence.
Qed.

Lemma PTExprToPB_lowered (e : PTExpr) (st : Status) (pb : QLExpressionPB) :
  PTExprToPB e = (st, pb) -> lowered e = pb /\ (lowers e <-> st = OK).
Proof. unfold lowered, lowers. intros ->. simpl. tauto. Qed.

(** What one iteration of the key loop does, by the way it ends. *)
Lemma ReadKeyOp_cases (op : ColumnOp) (s : ReadState) (flag : bool) :
  match ReadKeyOp op (s, flag) with
  | Continue (s', flag') =>
      flag' = flag
      /\ s' = with_req (add_hashed_column_values (key_slot op)) s
      /\ is_hash (desc op) = true /\ lowers (expr op)
      /\ ~ empty_IN op /\ ~ multi_valued_IN op
  | Break (s', flag') =>
      flag' = false
      /\ s' = with_req clear_hashed_column_values s
      /\ is_hash (desc op) = true /\ lowers (expr op)
      /\ multi_valued_IN op
  | Return st (s', flag') =>
      flag' = flag
      /\ req s' = add_hashed_column_values (lowered (expr op)) (req s)
      /\ is_hash (desc op) = true
      /\ ((st = OK /\ no_results s' = true /\ lowers (expr op) /\ empty_IN op)
          \/ (ok st = false /\ no_results s' = no_results s
              /\ ~ lowers (expr op)))
  | Abort _ => is_hash (desc op) = false
  end.
Proof.
  unfold ReadKeyOp, key_slot, empty_IN, multi_valued_IN, in_elems.
  destruct (is_hash (desc op)); [|reflexivity].
  destruct (PTExprToPB (expr op)) as [st pb] eqn:E.
  apply PTExprToPB_lowered in E as (-> & Hl).
  destruct st as [|msg]; simpl.
  - assert (L : lowers (expr op)) by (apply Hl; reflexivity).
    destruct (yb_op op) eqn:Eop; simpl;
      try (repeat split; auto; intros (? & ?); discriminate).
    destruct (list_value_elems (get_value pb)) as [|x [|y l]] eqn:El; simpl.
    + repeat split; auto. left; auto.
    + repeat split; auto; intros (_ & H); [discriminate | simpl in H; lia].
    + repeat split; auto; simpl; lia.
  - repeat split; auto. right; repeat split; auto.
    intros H; apply Hl in H; discriminate.
Qed.

(** A key op the loop passes over. *)
Lemma ReadKeyOp_passes (op : ColumnOp) (s : ReadState) (flag : bool) :
  is_hash (desc op) = true -> lowers (expr op) ->
  ~ empty_IN op -> ~ multi_valued_IN op ->
  ReadKeyOp op (s, flag) =
  Continue (with_req (add_hashed_column_values (key_slot op)) s, flag).
Proof.
  intros Hh Hl He Hm. pose proof (ReadKeyOp_cases op s flag) as C.
  destruct (ReadKeyOp op (s, flag)) as [[s' f']|[s' f']|st [s' f']|msg].
  - destruct C as (-> & -> & _); reflexivity.
  - destruct C as (_ & _ & _ & _ & C); contradiction.
  - destruct C as (_ & _ & _ & [(_ & _ & _ & C)|(_ & _ & C)]); contradiction.
  - congruence.
Qed.

(** The key loop stops at an empty [IN]. *)
Lemma ReadKeyOp_empty_IN (op : ColumnOp) (s : ReadState) (flag : bool) :
  is_hash (desc op) = true -> lowers (expr op) -> empty_IN op ->
  ReadKeyOp op (s, flag) =
  Return OK
    (set_no_results true
       (with_req (add_hashed_column_values (lowered (expr op))) s), flag).
Proof.
  intros Hh Hl (Hop & He). unfold ReadKeyOp.
  rewrite Hh. unfold in_elems, lowered in *. apply lowers_ok in Hl.
  destruct (PTExprToPB (expr op)) as [st pb]; simpl in *.
  rewrite Hl, Hop; simpl. rewrite He. reflexivity.
Qed.

(** The key loop gives up at a multi-valued [IN]. *)
Lemma ReadKeyOp_multi_valued_IN (op : ColumnOp) (s : ReadState) (flag : bool) :
  is_hash (desc op) = true -> lowers (expr op) -> multi_valued_IN op ->
  ReadKeyOp op (s, flag) = Break (with_req clear_hashed_column_values s, false).
Proof.
  intros Hh Hl (Hop & Hm). unfold ReadKeyOp.
  rewrite Hh. unfold in_elems, lowered in *. apply lowers_ok in Hl.
  destruct (PTExprToPB (expr op)) as [st pb]; simpl in *.
  rewrite Hl, Hop; simpl.
  destruct (list_value_elems (get_value pb)) as [|x [|y l]]; simpl in Hm;
    try lia.
  reflexivity.
Qed.

(** The key loop writes neither the bounds nor the predicate. *)
Lemma key_loop_frame (ops : list ColumnOp) (s s' : ReadState)
    (flag flag' : bool) :
  flow_state (for_each ReadKeyOp ops (s, flag)) = Some (s', flag') ->
  hash_code (req s') = hash_code (req s)
  /\ max_hash_code (req s') = max_hash_code (req s)
  /\ where_expr (req s') = where_expr (req s).
Proof.
  intros H.
  apply (for_each_invariant ReadKeyOp
           (fun t => hash_code (req (fst t)) = hash_code (req s)
                     /\ max_hash_code (req (fst t)) = max_hash_code (req s)
                     /\ where_expr (req (fst t)) = where_expr (req s))
           ) with (s' := (s', flag')) in H; auto.
  clear. intros op [t f] [t' f'] (H1 & H2 & H3) H; cbn [fst] in *.
  pose proof (ReadKeyOp_cases op t f) as C.
  destruct (ReadKeyOp op (t, f)) as [[u g]|[u g]|st [u g]|msg];
    simpl in H; try discriminate; injection H as -> ->.
  - destruct C as (_ & -> & _); simpl; auto.
  - destruct C as (_ & -> & _); simpl; auto.
  - destruct C as (_ & -> & _); simpl; auto.
Qed.

(** The key loop, by the way it ends. *)
Lemma key_loop_cases (ops : list ColumnOp) (s : ReadState) (flag : bool) :
  match for_each ReadKeyOp ops (s, flag) with
  | Continue (s', flag') =>
      flag' = flag /\ no_results s' = no_results s
      /\ hashed_column_values (req s') =
         hashed_column_values (req s) ++ map key_slot ops
      /\ Forall (fun op => ~ multi_valued_IN op) ops
  | Break (s', flag') =>
      flag' = false /\ no_results s' = no_results s
      /\ hashed_column_values (req s') = []
  | Return st (s', flag') =>
      (st = OK /\ no_results s' = true)
      \/ (ok st = false /\ no_results s' = no_results s)
  | Abort _ => True
  end.
Proof.
  revert s; induction ops as [|op ops IH]; intros s; cbn [for_each map].
  - rewrite app_nil_r; auto.
  - pose proof (ReadKeyOp_cases op s flag) as C.
    destruct (ReadKeyOp op (s, flag)) as [[s1 f1]|[s1 f1]|st [s1 f1]|msg].
    + destruct C as (-> & -> & _ & _ & _ & Hm).
      specialize (IH (with_req (add_hashed_column_values (key_slot op)) s)).
      destruct (for_each ReadKeyOp ops _) as [[u g]|[u g]|st [u g]|msg];
        simpl in *; auto.
      destruct IH as (-> & -> & -> & HF). rewrite <- app_assoc. auto.
    + destruct C as (-> & -> & _); simpl; auto.
    + destruct C as (_ & _ & _ & [(-> & ? & _)|(? & ? & _)]); auto.
    + exact I.
Qed.

(** Nothing behind a multi-valued [IN] is looked at. *)
Lemma key_loop_stops_at_multi (pre post : list ColumnOp) (op : ColumnOp)
    (s : ReadState) (flag : bool) :
  is_hash (desc op) = true -> lowers (expr op) -> multi_valued_IN op ->
  for_each ReadKeyOp (pre ++ op :: post) (s, flag) =
  for_each ReadKeyOp (pre ++ [op]) (s, flag).
Proof.
  intros Hh Hl Hm. rewrite !for_each_app.
  destruct (for_each ReadKeyOp pre (s, flag)) as [[s1 f1]|?|? ?|?]; auto.
  cbn [for_each]. rewrite ReadKeyOp_multi_valued_IN; auto.
Qed.

End KeyBinding.

(** ** The residual predicate *)

Section Residual.

Context {X : Collaborators}.

Lemma WhereOpToPB_comparison (col_op : ColumnOp) :
  condition (snd (WhereOpToPB col_op)) = comparison col_op
  /\ fst (WhereOpToPB col_op) = fst (PTExprToPB (expr col_op)).
Proof.
  unfold WhereOpToPB, comparison, lowered.
  destruct (PTExprToPB (expr col_op)) as [st pb]; simpl. auto.
Qed.

(** A loop of [add_operands] calls appends one condition per op, in order,
    and stops at the first builder that fails. *)
Lemma AddOperand_loop {A : Type} (ToPB : A -> Status * QLConditionPB)
    (ops : list A) (w : QLConditionPB) :
  match for_each (AddOperand ToPB) ops w with
  | Continue w' =>
      w' = Build_QLConditionPB (op w)
             (operands w ++ map (fun o => condition (snd (ToPB o))) ops)
      /\ Forall (fun o => fst (ToPB o) = OK) ops
  | Return st _ => ok st = false /\ ~ Forall (fun o => fst (ToPB o) = OK) ops
  | Break _ | Abort _ => False
  end.
Proof.
  revert w; induction ops as [|o ops IH]; intros w; cbn [for_each map].
  - rewrite app_nil_r. destruct w; auto.
  - unfold AddOperand at 1. destruct (ToPB o) as [st c] eqn:E.
    destruct st as [|msg]; simpl.
    + specialize (IH (add_operands (condition c) w)).
      destruct (for_each (AddOperand ToPB) ops _); auto.
      * destruct IH as (-> & HF). simpl. rewrite <- app_assoc. split; auto.
        constructor; auto. rewrite E; reflexivity.
      * destruct IH as (Hst & HF). split; auto.
        intros H; inversion H; auto.
    + split; auto. intros H; inversion H as [|? ? H1 _]; subst.
      rewrite E in H1; discriminate.
Qed.

Lemma AddOperand_loop_ok {A : Type} (ToPB : A -> Status * QLConditionPB)
    (ops : list A) (w : QLConditionPB) :
  Forall (fun o => fst (ToPB o) = OK) ops ->
  for_each (AddOperand ToPB) ops w =
  Continue (Build_QLConditionPB (op w)
              (operands w ++ map (fun o => condition (snd (ToPB o))) ops)).
Proof.
  intros HF. pose proof (AddOperand_loop ToPB ops w) as C.
  destruct (for_each (AddOperand ToPB) ops w); try contradiction.
  - destruct C as (-> & _); reflexivity.
  - destruct C as (_ & C); contradiction.
Qed.

Lemma map_comparison (ops : list ColumnOp) :
  map (fun o => condition (snd (WhereOpToPB o))) ops = map comparison ops.
Proof. apply map_ext; intros o; apply WhereOpToPB_comparison. Qed.

Lemma Forall_lowers (ops : list ColumnOp) :
  Forall (fun o => fst (WhereOpToPB o) = OK) ops
  <-> Forall (fun o => lowers (expr o)) ops.
Proof.
  unfold lowers. split; intros H; induction H; constructor; auto;
    destruct (WhereOpToPB_comparison x) as (_ & E); congruence.
Qed.

(** The builder, by the way it ends: it never aborts, it fails only with
    an error of a builder, and otherwise it has appended the residual
    operands to an [AND]. *)
Lemma BuildWhere_cases (flag : bool) (key_where_ops where_ops : list ColumnOp)
    (subcol_where_ops : list SubscriptedColumnOp) (func_ops : list FuncOp)
    (w : QLConditionPB) :
  match BuildWhere flag key_where_ops where_ops subcol_where_ops func_ops w with
  | Continue w' =>
      w' = Build_QLConditionPB QL_OP_AND
             (operands w ++ residual_operands flag key_where_ops where_ops
                              subcol_where_ops func_ops)
      /\ residual_lowers flag key_where_ops where_ops subcol_where_ops func_ops
  | Return st _ =>
      ok st = false
      /\ ~ residual_lowers flag key_where_ops where_ops subcol_where_ops func_ops
  | Break _ | Abort _ => False
  end.
Proof.
  unfold BuildWhere, residual_operands, residual_lowers, and_then.
  assert (K : match (if negb flag
                     then for_each (AddOperand WhereOpToPB) key_where_ops
                            (set_op QL_OP_AND w)
                     else Continue (set_op QL_OP_AND w)) with
              | Continue w' =>
                  w' = Build_QLConditionPB QL_OP_AND
                         (operands w ++
                          (if flag then [] else map comparison key_where_ops))
                  /\ (flag = false ->
                      Forall (fun o => lowers (expr o)) key_where_ops)
              | Return st _ =>
                  ok st = false
                  /\ ~ (flag = false ->
                        Forall (fun o => lowers (expr o)) key_where_ops)
              | Break _ | Abort _ => False
              end).
  { destruct flag; simpl.
    - rewrite app_nil_r. split; [reflexivity | discriminate].
    - pose proof (AddOperand_loop WhereOpToPB key_where_ops
                    (set_op QL_OP_AND w)) as C.
      destruct (for_each (AddOperand WhereOpToPB) key_where_ops _); auto.
      + destruct C as (-> & HF). rewrite map_comparison.
        apply Forall_lowers in HF. auto.
      + destruct C as (Hst & HF). rewrite Forall_lowers in HF. auto. }
  destruct (if negb flag then _ else _) as [w1| | |]; simpl;
    try contradiction; [|tauto].
  destruct K as (-> & HK).
  pose proof (AddOperand_loop WhereOpToPB where_ops
                (Build_QLConditionPB QL_OP_AND
                   (operands w ++
                    (if flag then [] else map comparison key_where_ops))))
    as C1.
  destruct (for_each (AddOperand WhereOpToPB) where_ops _) as [w2| | |];
    simpl; try contradiction; [|rewrite Forall_lowers in C1; tauto].
  destruct C1 as (-> & H1). rewrite map_comparison.
  apply Forall_lowers in H1. simpl.
  pose proof (AddOperand_loop WhereSubColOpToPB subcol_where_ops
                (Build_QLConditionPB QL_OP_AND
                   ((operands w ++
                     (if flag then [] else map comparison key_where_ops))
                    ++ map comparison where_ops))) as C2.
  destruct (for_each (AddOperand WhereSubColOpToPB) subcol_where_ops _)
    as [w3| | |]; simpl; try contradiction; [|tauto].
  destruct C2 as (-> & H2). simpl.
  pose proof (AddOperand_loop FuncOpToPB func_ops
                (Build_QLConditionPB QL_OP_AND
                   (((operands w ++
                      (if flag then [] else map comparison key_where_ops))
                     ++ map comparison where_ops)
                    ++ map (fun o => condition (snd (WhereSubColOpToPB o)))
                         subcol_where_ops))) as C3.
  destruct (for_each (AddOperand FuncOpToPB) func_ops _) as [w4| | |];
    simpl; try contradiction; [|tauto].
  destruct C3 as (-> & H3). simpl.
  rewrite <- !app_assoc. auto.
Qed.

(** The last stage writes [where_expr] and nothing else. *)
Lemma WhereStage_frame (flag : bool) (key_where_ops where_ops : list ColumnOp)
    (subcol_where_ops : list SubscriptedColumnOp) (func_ops : list FuncOp)
    (s s' : ReadState) (st : Status) :
  WhereStage flag key_where_ops where_ops subcol_where_ops func_ops s
  = Returned st s' ->
  no_results s' = no_results s
  /\ hashed_column_values (req s') = hashed_column_values (req s)
  /\ hash_code (req s') = hash_code (req s)
  /\ max_hash_code (req s') = max_hash_code (req s).
Proof.
  unfold WhereStage.
  destruct (flag && is_nil where_ops && is_nil subcol_where_ops
            && is_nil func_ops).
  - intros [= _ <-]; auto.
  - destruct (BuildWhere _ _ _ _ _ _); try discriminate;
      intros [= _ <-]; simpl; auto.
Qed.

(** A successful last stage, when it is not skipped, leaves the [AND] of
    the operands already there followed by the residual operands. *)
Lemma WhereStage_OK (flag : bool) (key_where_ops where_ops : list ColumnOp)
    (subcol_where_ops : list SubscriptedColumnOp) (func_ops : list FuncOp)
    (s s' : ReadState) :
  WhereStage flag key_where_ops where_ops subcol_where_ops func_ops s
  = Returned OK s' ->
  flag && is_nil where_ops && is_nil subcol_where_ops && is_nil func_ops
  = false ->
  where_expr (req s') =
  Some (condition
          (Build_QLConditionPB QL_OP_AND
             (operands (mutable_condition (where_expr (req s)))
              ++ residual_operands flag key_where_ops where_ops
                   subcol_where_ops func_ops))).
Proof.
  unfold WhereStage. intros H E. rewrite E in H.
  pose proof (BuildWhere_cases flag key_where_ops where_ops subcol_where_ops
                func_ops (mutable_condition (where_expr (req s)))) as C.
  destruct (BuildWhere _ _ _ _ _ _) as [w| |st w|]; try contradiction.
  - destruct C as (-> & _). injection H as <-. reflexivity.
  - destruct C as (Hst & _). injection H as -> _. discriminate.
Qed.

(** The last stage succeeds when every expression it lowers is accepted. *)
Lemma WhereStage_runs (flag : bool) (key_where_ops where_ops : list ColumnOp)
    (subcol_where_ops : list SubscriptedColumnOp) (func_ops : list FuncOp)
    (s : ReadState) :
  residual_lowers flag key_where_ops where_ops subcol_where_ops func_ops ->
  exists s',
    WhereStage flag key_where_ops where_ops subcol_where_ops func_ops s
    = Returned OK s'.
Proof.
  intros HL. unfold WhereStage.
  destruct (flag && is_nil where_ops && is_nil subcol_where_ops
            && is_nil func_ops); [eauto|].
  pose proof (BuildWhere_cases flag key_where_ops where_ops subcol_where_ops
                func_ops (mutable_condition (where_expr (req s)))) as C.
  destruct (BuildWhere _ _ _ _ _ _) as [w| |st w|]; try contradiction; eauto.
  destruct C as (_ & C); contradiction.
Qed.

End Residual.

(** ** The read overload as a whole *)

Section ReadPath.

Context {X : Collaborators}.

(** The bounds a read returns with are the ones the token loop left. *)
Lemma read_bounds_from_token_loop (req0 : QLReadRequestPB)
    (key_where_ops where_ops : list ColumnOp)
    (subcol_where_ops : list SubscriptedColumnOp)
    (partition_key_ops : list PartitionKeyOp) (func_ops : list FuncOp)
    (st : Status) (s : ReadState) :
  WhereClauseToPB_read req0 key_where_ops where_ops subcol_where_ops
    partition_key_ops func_ops = Returned st s ->
  exists s1,
    flow_state (TokenStage partition_key_ops (on_entry req0)) = Some s1
    /\ hash_code (req s) = hash_code (req s1)
    /\ max_hash_code (req s) = max_hash_code (req s1).
Proof.
  unfold WhereClauseToPB_read, KeyStage.
  destruct (TokenStage partition_key_ops (on_entry req0)) as [s1|s1|st1 s1|m];
    try discriminate.
  3: { intros [= _ <-]. exists s1; auto. }
  all: intros H; exists s1; split; [reflexivity|].
  all: pose proof (fun t f => key_loop_frame key_where_ops s1 t true f) as F.
  all: destruct (for_each ReadKeyOp key_where_ops (s1, true))
         as [[s2 f]|[s2 f]|st2 [s2 f]|m]; try discriminate.
  all: destruct (F s2 f eq_refl) as (F1 & F2 & _).
  all: try (apply WhereStage_frame in H as (_ & _ & H1 & H2); split; congruence).
  all: injection H as _ <-; auto.
Qed.

(** C2.  The token loop follows the transition table.  For a token op whose
    right-hand side folds to the hash code [v]: [GT v] makes the function
    return [OK] with [no_results] set when [v] is the largest hash code and
    sets [hash_code] to [v + 1] otherwise; [GE v] sets [hash_code] to [v];
    [LT v] sets [max_hash_code] to [v]; [LE v] changes nothing when [v] is
    the largest hash code and sets [max_hash_code] to [v + 1] otherwise;
    [EQ v] sets [hash_code] to [v] and, unless [v] is the largest hash code,
    [max_hash_code] to [v + 1].  Nothing else of the state changes, and a
    [GE] followed by a [LT] leaves both of their bounds. *)
Theorem token_op_transition_table (op : PartitionKeyOp) (v : Z)
    (s : ReadState) :
  folds_to op v ->
  (pk_yb_op op = QL_OP_GREATER_THAN ->
     (v = kMaxHashCode -> TokenOp op s = Return OK (set_no_results true s))
     /\ (v <> kMaxHashCode ->
         TokenOp op s = Continue (with_req (set_hash_code (v + 1)) s)))
  /\ (pk_yb_op op = QL_OP_GREATER_THAN_EQUAL ->
      TokenOp op s = Continue (with_req (set_hash_code v) s))
  /\ (pk_yb_op op = QL_OP_LESS_THAN ->
      TokenOp op s = Continue (with_req (set_max_hash_code v) s))
  /\ (pk_yb_op op = QL_OP_LESS_THAN_EQUAL ->
      (v = kMaxHashCode -> TokenOp op s = Continue s)
      /\ (v <> kMaxHashCode ->
          TokenOp op s = Continue (with_req (set_max_hash_code (v + 1)) s)))
  /\ (pk_yb_op op = QL_OP_EQUAL ->
      (v = kMaxHashCode ->
       TokenOp op s = Continue (with_req (set_hash_code v) s))
      /\ (v <> kMaxHashCode ->
          TokenOp op s =
          Continue (with_req (set_max_hash_code (v + 1))
                      (with_req (set_hash_code v) s))))
  /\ (forall op' v',
        folds_to op' v' ->
        pk_yb_op op = QL_OP_GREATER_THAN_EQUAL ->
        pk_yb_op op' = QL_OP_LESS_THAN ->
        TokenStage [op; op'] s =
        Continue (with_req (set_max_hash_code v')
                    (with_req (set_hash_code v) s))).
Proof.
  intros Hv.
  assert (Hmax : v = kMaxHashCode -> (v =? kMaxHashCode) = true)
    by (intros ->; reflexivity).
  assert (Hnot : v <> kMaxHashCode -> (v =? kMaxHashCode) = false)
    by (apply Z.eqb_neq).
  pose proof (TokenOp_folded op v s Hv) as E.
  split; [|split; [|split; [|split; [|split]]]].
  - intros Hop; rewrite Hop in E; simpl in E.
    split; intros Hcase; rewrite E;
      [rewrite (Hmax Hcase) | rewrite (Hnot Hcase)]; reflexivity.
  - intros Hop; rewrite Hop in E; exact E.
  - intros Hop; rewrite Hop in E; exact E.
  - intros Hop; rewrite Hop in E; simpl in E.
    split; intros Hcase; rewrite E;
      [rewrite (Hmax Hcase) | rewrite (Hnot Hcase)]; reflexivity.
  - intros Hop; rewrite Hop in E; simpl in E.
    split; intros Hcase; rewrite E;
      [rewrite (Hmax Hcase) | rewrite (Hnot Hcase)]; reflexivity.
  - intros op' v' Hv' Hge Hlt. unfold TokenStage. cbn [for_each].
    rewrite E, Hge. simpl.
    rewrite (TokenOp_folded op' v' _ Hv'), Hlt. reflexivity.
Qed.

(** C6.  For a hash code [v] below the largest one, the token loop over
    [EQ v] leaves the same state, hence the same interval
    [hash_code = v], [max_hash_code = v + 1], as the token loop over
    [GE v, LT v + 1]; so does the whole read lowering. *)
Theorem eq_reduces_like_ge_lt (op_eq op_ge op_lt : PartitionKeyOp) (v : Z)
    (s : ReadState) :
  pk_yb_op op_eq = QL_OP_EQUAL ->
  pk_yb_op op_ge = QL_OP_GREATER_THAN_EQUAL ->
  pk_yb_op op_lt = QL_OP_LESS_THAN ->
  folds_to op_eq v -> folds_to op_ge v -> folds_to op_lt (v + 1) ->
  v < kMaxHashCode ->
  TokenStage [op_eq] s = TokenStage [op_ge; op_lt] s
  /\ (exists s', TokenStage [op_eq] s = Continue s'
                 /\ hash_code (req s') = Some v
                 /\ max_hash_code (req s') = Some (v + 1))
  /\ (forall req0 key_where_ops where_ops subcol_where_ops func_ops,
        WhereClauseToPB_read req0 key_where_ops where_ops subcol_where_ops
          [op_eq] func_ops =
        WhereClauseToPB_read req0 key_where_ops where_ops subcol_where_ops
          [op_ge; op_lt] func_ops).
Proof.
  intros Heq Hge Hlt Fe Fg Fl Hv.
  assert (Hnot : (v =? kMaxHashCode) = false) by (apply Z.eqb_neq; lia).
  assert (E : forall t, TokenStage [op_eq] t = TokenStage [op_ge; op_lt] t
                        /\ TokenStage [op_eq] t =
                           Continue (with_req (set_max_hash_code (v + 1))
                                       (with_req (set_hash_code v) t))).
  { intros t. unfold TokenStage. cbn [for_each].
    rewrite (TokenOp_folded op_eq v t Fe), Heq.
    rewrite (TokenOp_folded op_ge v t Fg), Hge. simpl. rewrite Hnot. simpl.
    rewrite (TokenOp_folded op_lt (v + 1) _ Fl), Hlt. simpl. auto. }
  split; [apply E|]. split.
  - eexists. split; [apply E|]. simpl. auto.
  - intros. unfold WhereClauseToPB_read.
    destruct (E (on_entry req0)) as (-> & _). reflexivity.
Qed.

Lemma bounds_consistent_single (op : PartitionKeyOp) : bounds_consistent [op].
Proof.
  intros op1 op2 v1 v2 lo hi [<-|[]] [<-|[]] F1 F2.
  rewrite (folds_to_functional op v2 v1 F2 F1).
  unfold lower_bound, upper_bound.
  destruct (pk_yb_op op); try discriminate;
    destruct (v1 =? kMaxHashCode); try discriminate;
    intros [= <-] [= <-]; lia.
Qed.

(** C1, as amended.  The lowering compares no bounds with each other: a
    read that returns, from a request with no bounds set, has
    [hash_code < max_hash_code] whenever both are set provided every lower
    bound a token op of the list writes is below every upper bound one of
    them writes; a list of a single token op always meets the proviso. *)
Theorem consistent_token_bounds_ordered :
  (forall (req0 : QLReadRequestPB) (key_where_ops where_ops : list ColumnOp)
          (subcol_where_ops : list SubscriptedColumnOp)
          (partition_key_ops : list PartitionKeyOp) (func_ops : list FuncOp)
          (st : Status) (s : ReadState) (lo hi : Z),
      hash_code req0 = None -> max_hash_code req0 = None ->
      bounds_consistent partition_key_ops ->
      WhereClauseToPB_read req0 key_where_ops where_ops subcol_where_ops
        partition_key_ops func_ops = Returned st s ->
      hash_code (req s) = Some lo -> max_hash_code (req s) = Some hi ->
      lo < hi)
  /\ (forall token_op : PartitionKeyOp, bounds_consistent [token_op]).
Proof.
  split; [|exact bounds_consistent_single].
  intros req0 key_where_ops where_ops subcol_where_ops partition_key_ops
    func_ops st s lo hi H0 H0' Hc Hr Hlo Hhi.
  apply read_bounds_from_token_loop in Hr as (s1 & Hs1 & E1 & E2).
  rewrite E1 in Hlo; rewrite E2 in Hhi.
  apply TokenStage_bounds in Hs1 as (B1 & B2). simpl in B1, B2.
  destruct B1 as [B1|(op1 & v1 & lo' & I1 & F1 & L1 & B1)]; [congruence|].
  destruct B2 as [B2|(op2 & v2 & hi' & I2 & F2 & L2 & B2)]; [congruence|].
  rewrite B1 in Hlo; injection Hlo as <-.
  rewrite B2 in Hhi; injection Hhi as <-.
  exact (Hc op1 op2 v1 v2 lo' hi' I1 I2 F1 F2 L1 L2).
Qed.

(** No ordering is imposed on the two bounds: a [GE] followed by a [LT]
    leaves both hash codes as they are, whichever is larger. *)
Lemma GE_then_LT_bounds_unchecked (ge lt : PartitionKeyOp) (a b : Z) :
  pk_yb_op ge = QL_OP_GREATER_THAN_EQUAL -> pk_yb_op lt = QL_OP_LESS_THAN ->
  folds_to ge a -> folds_to lt b ->
  WhereClauseToPB_read new_read_request [] [] [] [ge; lt] []
  = Returned OK
      (on_entry (set_max_hash_code b (set_hash_code a new_read_request))).
Proof.
  intros Hge Hlt Fa Fb. unfold WhereClauseToPB_read, TokenStage.
  cbn [for_each].
  rewrite (TokenOp_folded ge a _ Fa), Hge. simpl.
  rewrite (TokenOp_folded lt b _ Fb), Hlt. reflexivity.
Qed.

(** A read whose token loop meets [GT] of the largest hash code. *)
Lemma read_stops_at_GT_max (req0 : QLReadRequestPB)
    (key_where_ops where_ops : list ColumnOp)
    (subcol_where_ops : list SubscriptedColumnOp)
    (pre post : list PartitionKeyOp) (op : PartitionKeyOp)
    (func_ops : list FuncOp) (s1 : ReadState) :
  TokenStage pre (on_entry req0) = Continue s1 ->
  pk_yb_op op = QL_OP_GREATER_THAN -> folds_to op kMaxHashCode ->
  WhereClauseToPB_read req0 key_where_ops where_ops subcol_where_ops
    (pre ++ op :: post) func_ops = Returned OK (set_no_results true s1).
Proof.
  intros Hpre Hop Hf. unfold WhereClauseToPB_read, TokenStage in *.
  rewrite for_each_app, Hpre. cbn [for_each].
  rewrite (TokenOp_folded op kMaxHashCode s1 Hf), Hop. reflexivity.
Qed.

(** A read whose key loop meets an empty [IN]. *)
Lemma read_stops_at_empty_IN (req0 : QLReadRequestPB)
    (pre post where_ops : list ColumnOp) (op : ColumnOp)
    (subcol_where_ops : list SubscriptedColumnOp)
    (partition_key_ops : list PartitionKeyOp) (func_ops : list FuncOp)
    (s1 s2 : ReadState) :
  TokenStage partition_key_ops (on_entry req0) = Continue s1 ->
  for_each ReadKeyOp pre (s1, true) = Continue (s2, true) ->
  is_hash (desc op) = true -> lowers (expr op) -> empty_IN op ->
  WhereClauseToPB_read req0 (pre ++ op :: post) where_ops subcol_where_ops
    partition_key_ops func_ops =
  Returned OK
    (set_no_results true
       (with_req (add_hashed_column_values (lowered (expr op))) s2)).
Proof.
  intros Ht Hpre Hh Hl He. unfold WhereClauseToPB_read, KeyStage.
  rewrite Ht, for_each_app, Hpre. cbn [for_each].
  rewrite (ReadKeyOp_empty_IN op s2 true Hh Hl He). reflexivity.
Qed.

(** A read whose key loop meets a multi-valued [IN]. *)
Lemma read_demotes_at_multi_valued_IN (req0 : QLReadRequestPB)
    (pre post where_ops : list ColumnOp) (op : ColumnOp)
    (subcol_where_ops : list SubscriptedColumnOp)
    (partition_key_ops : list PartitionKeyOp) (func_ops : list FuncOp)
    (s1 s2 : ReadState) :
  TokenStage partition_key_ops (on_entry req0) = Continue s1 ->
  for_each ReadKeyOp pre (s1, true) = Continue (s2, true) ->
  is_hash (desc op) = true -> lowers (expr op) -> multi_valued_IN op ->
  KeyStage (pre ++ op :: post) s1
  = Break (with_req clear_hashed_column_values s2, false)
  /\ WhereClauseToPB_read req0 (pre ++ op :: post) where_ops subcol_where_ops
       partition_key_ops func_ops =
     WhereStage false (pre ++ op :: post) where_ops subcol_where_ops func_ops
       (with_req clear_hashed_column_values s2).
Proof.
  intros Ht Hpre Hh Hl Hm. unfold WhereClauseToPB_read, KeyStage.
  rewrite Ht, for_each_app, Hpre. cbn [for_each].
  rewrite (ReadKeyOp_multi_valued_IN op s2 true Hh Hl Hm). auto.
Qed.

(** C5.  A provably empty result ends the lowering at once.  When the token
    loop reaches a [GT] whose hash code is the largest one, and when the key
    loop reaches an [IN] on a hash column whose lowered list has no element,
    the function returns [OK] with [no_results] set; the state is the one
    reached there (with the slot of the empty [IN] appended), whatever ops
    follow and whatever the later stages would have been given, and
    [where_expr] is the caller's. *)
Theorem empty_result_short_circuits :
  (forall req0 key_where_ops where_ops subcol_where_ops pre op post func_ops
          s1,
      TokenStage pre (on_entry req0) = Continue s1 ->
      pk_yb_op op = QL_OP_GREATER_THAN -> folds_to op kMaxHashCode ->
      WhereClauseToPB_read req0 key_where_ops where_ops subcol_where_ops
        (pre ++ op :: post) func_ops = Returned OK (set_no_results true s1)
      /\ hashed_column_values (req s1) = hashed_column_values req0
      /\ where_expr (req s1) = where_expr req0)
  /\ (forall req0 pre op post where_ops subcol_where_ops partition_key_ops
             func_ops s1 s2,
      TokenStage partition_key_ops (on_entry req0) = Continue s1 ->
      for_each ReadKeyOp pre (s1, true) = Continue (s2, true) ->
      is_hash (desc op) = true -> lowers (expr op) -> empty_IN op ->
      WhereClauseToPB_read req0 (pre ++ op :: post) where_ops subcol_where_ops
        partition_key_ops func_ops =
      Returned OK
        (set_no_results true
           (with_req (add_hashed_column_values (lowered (expr op))) s2))
      /\ where_expr (req s2) = where_expr req0).
Proof.
  split.
  - intros req0 key_where_ops where_ops subcol_where_ops pre op post func_ops
      s1 Hpre Hop Hf. split.
    + apply (read_stops_at_GT_max req0 key_where_ops where_ops
               subcol_where_ops pre post op func_ops s1); assumption.
    + apply (TokenStage_frame pre (on_entry req0) s1). rewrite Hpre; reflexivity.
  - intros req0 pre op post where_ops subcol_where_ops partition_key_ops
      func_ops s1 s2 Ht Hpre Hh Hl He. split.
    + apply (read_stops_at_empty_IN req0 pre post where_ops op
               subcol_where_ops partition_key_ops func_ops s1 s2); assumption.
    + destruct (key_loop_frame pre s1 s2 true true) as (_ & _ & ->);
        [rewrite Hpre; reflexivity|].
      apply (TokenStage_frame partition_key_ops (on_entry req0) s1).
      rewrite Ht; reflexivity.
Qed.

(** C9.  An empty [IN] clears nothing.  When the key loop reaches an [IN] on
    a hash column whose lowered list has no element, the function returns
    [OK] with [no_results] set and [hashed_column_values] holds what the
    caller's request held, then the slots of the key ops passed before, then
    the slot lowered for the empty [IN] itself. *)
Theorem empty_IN_keeps_hashed_column_values (req0 : QLReadRequestPB)
    (pre post where_ops : list ColumnOp) (op : ColumnOp)
    (subcol_where_ops : list SubscriptedColumnOp)
    (partition_key_ops : list PartitionKeyOp) (func_ops : list FuncOp)
    (s1 s2 : ReadState) :
  TokenStage partition_key_ops (on_entry req0) = Continue s1 ->
  for_each ReadKeyOp pre (s1, true) = Continue (s2, true) ->
  is_hash (desc op) = true -> lowers (expr op) -> empty_IN op ->
  exists s,
    WhereClauseToPB_read req0 (pre ++ op :: post) where_ops subcol_where_ops
      partition_key_ops func_ops = Returned OK s
    /\ no_results s = true
    /\ hashed_column_values (req s) =
       hashed_column_values req0 ++ map key_slot pre ++ [lowered (expr op)].
Proof.
  intros Ht Hpre Hh Hl He. eexists. split; [|split].
  - apply (read_stops_at_empty_IN req0 pre post where_ops op subcol_where_ops
             partition_key_ops func_ops s1 s2); assumption.
  - reflexivity.
  - simpl. pose proof (key_loop_cases pre s1 true) as C.
    rewrite Hpre in C. destruct C as (_ & _ & -> & _).
    destruct (TokenStage_frame partition_key_ops (on_entry req0) s1) as (-> & _);
      [rewrite Ht; reflexivity|].
    simpl. rewrite <- app_assoc. reflexivity.
Qed.

(** C8.  No vacuous predicate.  With no column, subscripted-column or
    function ops: when the token loop falls through and the key loop ends
    with [key_ops_are_set] still true, the function returns [OK] right after
    the key loop; and however the function returns, as long as the key loop
    has not given up its bindings at a multi-valued [IN], [where_expr] is as
    the caller gave it, unset for a request that had none. *)
Theorem no_residual_leaves_where_expr (req0 : QLReadRequestPB)
    (key_where_ops : list ColumnOp) (partition_key_ops : list PartitionKeyOp) :
  (forall s1 s2,
      TokenStage partition_key_ops (on_entry req0) = Continue s1 ->
      KeyStage key_where_ops s1 = Continue (s2, true) ->
      WhereClauseToPB_read req0 key_where_ops [] [] partition_key_ops []
      = Returned OK s2)
  /\ (forall st s,
        WhereClauseToPB_read req0 key_where_ops [] [] partition_key_ops []
        = Returned st s ->
        (forall s1 ks,
            TokenStage partition_key_ops (on_entry req0) = Continue s1 ->
            KeyStage key_where_ops s1 <> Break ks) ->
        where_expr (req s) = where_expr req0
        /\ (where_expr req0 = None -> where_expr (req s) = None)).
Proof.
  split.
  - intros s1 s2 Ht Hk. unfold WhereClauseToPB_read. rewrite Ht, Hk.
    reflexivity.
  - intros st s Hr Hnb.
    assert (E : where_expr (req s) = where_expr req0); [|split; congruence].
    unfold WhereClauseToPB_read in Hr.
    pose proof (fun t => TokenStage_never_breaks partition_key_ops
                           (on_entry req0) t) as NB.
    pose proof (fun t => TokenStage_frame partition_key_ops (on_entry req0) t)
      as TF.
    destruct (TokenStage partition_key_ops (on_entry req0))
      as [s1|s1|st1 s1|m]; try discriminate.
    2: { exfalso; exact (NB s1 eq_refl). }
    2: { injection Hr as _ <-. apply (TF s1 eq_refl). }
    destruct (TF s1 eq_refl) as (_ & TW). simpl in TW.
    specialize (Hnb s1). unfold KeyStage in *.
    pose proof (key_loop_cases key_where_ops s1 true) as C.
    pose proof (fun t f => key_loop_frame key_where_ops s1 t true f) as KF.
    destruct (for_each ReadKeyOp key_where_ops (s1, true))
      as [[s2 f]|[s2 f]|st2 [s2 f]|m]; try discriminate.
    + destruct C as (-> & _). simpl in Hr. injection Hr as _ <-.
      destruct (KF s2 true eq_refl) as (_ & _ & ->). exact TW.
    + exfalso. exact (Hnb (s2, f) eq_refl eq_refl).
    + injection Hr as _ <-.
      destruct (KF s2 f eq_refl) as (_ & _ & ->). exact TW.
Qed.

(** C3, as amended.  A read that returns [OK] without declaring the result
    empty, and whose key ops contain an [IN] with two or more elements, has
    demoted its key ops: [hashed_column_values] is empty, and [where_expr]
    is an [AND] whose operands are those the caller's request already had,
    then the binary comparison (column id, comparator, lowered right-hand
    side) of every key op in order, then the other residual operands. *)
Theorem multi_valued_IN_demotes_key_ops (req0 : QLReadRequestPB)
    (key_where_ops where_ops : list ColumnOp)
    (subcol_where_ops : list SubscriptedColumnOp)
    (partition_key_ops : list PartitionKeyOp) (func_ops : list FuncOp)
    (s : ReadState) :
  WhereClauseToPB_read req0 key_where_ops where_ops subcol_where_ops
    partition_key_ops func_ops = Returned OK s ->
  no_results s = false ->
  Exists multi_valued_IN key_where_ops ->
  hashed_column_values (req s) = []
  /\ where_expr (req s) =
     Some (condition
             (Build_QLConditionPB QL_OP_AND
                (operands (mutable_condition (where_expr req0))
                 ++ map comparison key_where_ops
                 ++ map comparison where_ops
                 ++ map (fun o => condition (snd (WhereSubColOpToPB o)))
                      subcol_where_ops
                 ++ map (fun o => condition (snd (FuncOpToPB o))) func_ops)))
  /\ (forall key_op, In key_op key_where_ops ->
        exists c, where_expr (req s) = Some (condition c)
                  /\ op c = QL_OP_AND /\ In (comparison key_op) (operands c)).
Proof.
  intros Hr Hn Hm.
  assert (K : hashed_column_values (req s) = []
              /\ where_expr (req s) =
                 Some (condition
                         (Build_QLConditionPB QL_OP_AND
                            (operands (mutable_condition (where_expr req0))
                             ++ residual_operands false key_where_ops where_ops
                                  subcol_where_ops func_ops)))).
  { unfold WhereClauseToPB_read in Hr.
    pose proof (TokenStage_no_results partition_key_ops (on_entry req0)) as N.
    pose proof (fun t => TokenStage_never_breaks partition_key_ops
                           (on_entry req0) t) as NB.
    pose proof (fun t => TokenStage_frame partition_key_ops (on_entry req0) t)
      as TF.
    destruct (TokenStage partition_key_ops (on_entry req0))
      as [s1|s1|st1 s1|m]; try discriminate.
    2: { exfalso; exact (NB s1 eq_refl). }
    2: { injection Hr as -> ->. congruence. }
    destruct (TF s1 eq_refl) as (_ & TW). simpl in TW.
    unfold KeyStage in Hr.
    pose proof (key_loop_cases key_where_ops s1 true) as C.
    pose proof (fun t f => key_loop_frame key_where_ops s1 t true f) as KF.
    destruct (for_each ReadKeyOp key_where_ops (s1, true))
      as [[s2 f]|[s2 f]|st2 [s2 f]|m]; try discriminate.
    - destruct C as (_ & _ & _ & C). exfalso.
      apply Exists_exists in Hm as (o & Ho & Hm).
      rewrite Forall_forall in C. exact (C o Ho Hm).
    - destruct C as (-> & _ & C).
      destruct (KF s2 false eq_refl) as (_ & _ & KW).
      pose proof (WhereStage_frame _ _ _ _ _ _ _ _ Hr) as (_ & -> & _).
      split; [exact C|].
      rewrite (WhereStage_OK _ _ _ _ _ _ _ Hr eq_refl). congruence.
    - injection Hr as -> ->.
      destruct C as [(_ & C)|(C & _)]; [congruence | discriminate]. }
  destruct K as (K1 & K2). split; [exact K1|]. split; [exact K2|].
  intros key_op Hin. eexists. split; [exact K2|]. split; [reflexivity|].
  simpl. apply in_or_app; right. apply in_or_app; left.
  apply in_map; exact Hin.
Qed.

(** C10.  A multi-valued [IN] hides an empty [IN] behind it.  When the key
    loop reaches an [IN] with two or more elements on a hash column, it
    leaves at that op whatever follows, an empty [IN] included; the function
    then never returns with [no_results] set, and when the residual
    expressions lower it returns [OK] with no hash key values and with the
    comparison of the empty [IN] among the operands of the [AND]. *)
Theorem multi_valued_IN_hides_empty_IN (req0 : QLReadRequestPB)
    (pre mid post where_ops : list ColumnOp) (multi empty : ColumnOp)
    (subcol_where_ops : list SubscriptedColumnOp)
    (partition_key_ops : list PartitionKeyOp) (func_ops : list FuncOp)
    (s1 s2 : ReadState) :
  TokenStage partition_key_ops (on_entry req0) = Continue s1 ->
  for_each ReadKeyOp pre (s1, true) = Continue (s2, true) ->
  is_hash (desc multi) = true -> lowers (expr multi) ->
  multi_valued_IN multi ->
  empty_IN empty ->
  KeyStage (pre ++ multi :: mid ++ empty :: post) s1
  = KeyStage (pre ++ [multi]) s1
  /\ (forall st s,
        WhereClauseToPB_read req0 (pre ++ multi :: mid ++ empty :: post)
          where_ops subcol_where_ops partition_key_ops func_ops
        = Returned st s ->
        no_results s = false)
  /\ (residual_lowers false (pre ++ multi :: mid ++ empty :: post) where_ops
        subcol_where_ops func_ops ->
      exists s c,
        WhereClauseToPB_read req0 (pre ++ multi :: mid ++ empty :: post)
          where_ops subcol_where_ops partition_key_ops func_ops
        = Returned OK s
        /\ no_results s = false
        /\ hashed_column_values (req s) = []
        /\ where_expr (req s) = Some (condition c)
        /\ op c = QL_OP_AND
        /\ In (comparison empty) (operands c)).
Proof.
  intros Ht Hpre Hh Hl Hm He.
  destruct (read_demotes_at_multi_valued_IN req0 pre (mid ++ empty :: post)
              where_ops multi subcol_where_ops partition_key_ops func_ops
              s1 s2 Ht Hpre Hh Hl Hm) as (_ & R).
  assert (N : no_results s2 = false).
  { pose proof (TokenStage_no_results partition_key_ops (on_entry req0)) as N.
    rewrite Ht in N.
    pose proof (key_loop_cases pre s1 true) as C. rewrite Hpre in C.
    destruct C as (_ & -> & _). exact N. }
  split; [|split].
  - apply key_loop_stops_at_multi; assumption.
  - intros st s Hr. rewrite R in Hr.
    apply WhereStage_frame in Hr as (-> & _). exact N.
  - intros HL. rewrite R.
    destruct (WhereStage_runs false _ where_ops subcol_where_ops func_ops
                (with_req clear_hashed_column_values s2) HL) as (s & Hs).
    exists s. eexists. split; [exact Hs|].
    pose proof (WhereStage_frame _ _ _ _ _ _ _ _ Hs) as (-> & -> & _).
    split; [exact N|]. split; [reflexivity|].
    split; [exact (WhereStage_OK _ _ _ _ _ _ _ Hs eq_refl)|].
    split; [reflexivity|].
    simpl. apply in_or_app; right. apply in_or_app; left.
    apply in_map. apply in_or_app; right. right.
    apply in_or_app; right. left; reflexivity.
Qed.

(** C4.  An [IN] with one element binds like an equality.  For a key op on
    a hash column whose lowered right-hand side is the list of the single
    value [x], the key loop appends [x] itself, not the list, and goes on:
    the same step as for an [EQ] op on that column whose right-hand side
    lowers to [x].  Alone in a read, the op leaves [x] as the one new hash
    key value and writes no predicate. *)
Theorem singleton_IN_binds_like_equality (in_op : ColumnOp) (x : QLValuePB)
    (s : ReadState) (flag : bool) :
  is_hash (desc in_op) = true -> yb_op in_op = QL_OP_IN ->
  PTExprToPB (expr in_op) = (OK, value (list_value [x])) ->
  ReadKeyOp in_op (s, flag)
  = Continue (with_req (add_hashed_column_values (value x)) s, flag)
  /\ (forall eq_op,
        desc eq_op = desc in_op -> yb_op eq_op = QL_OP_EQUAL ->
        PTExprToPB (expr eq_op) = (OK, value x) ->
        ReadKeyOp eq_op (s, flag) = ReadKeyOp in_op (s, flag))
  /\ (forall req0,
        WhereClauseToPB_read req0 [in_op] [] [] [] []
        = Returned OK (on_entry (add_hashed_column_values (value x) req0))).
Proof.
  intros Hh Hop Hx.
  assert (E : forall t f, ReadKeyOp in_op (t, f)
              = Continue (with_req (add_hashed_column_values (value x)) t, f)).
  { intros t f. unfold ReadKeyOp. rewrite Hh, Hx, Hop. reflexivity. }
  split; [apply E|]. split.
  - intros eq_op Hd Ho He. rewrite E. unfold ReadKeyOp.
    rewrite Hd, Hh, He, Ho. reflexivity.
  - intros req0. unfold WhereClauseToPB_read, TokenStage, KeyStage.
    cbn [for_each]. rewrite E. reflexivity.
Qed.

End ReadPath.

(** ** The write overload *)

Section WritePath.

Context {X : Collaborators}.

Lemma is_hash_is_primary (d : ColumnDesc) :
  is_hash d = true -> is_primary d = true.
Proof. unfold is_hash, is_primary. destruct (role d); auto. Qed.

Lemma lower_subscript_args_ok (args : list PTExpr)
    (acc : list QLExpressionPB) :
  Forall lowers args ->
  lower_subscript_args args acc = (OK, acc ++ map lowered args).
Proof.
  intros H; revert acc; induction H as [|arg args Ha _ IH]; intros acc; simpl.
  - rewrite app_nil_r; reflexivity.
  - unfold lowers, lowered in *. destruct (PTExprToPB arg) as [st e].
    simpl in *; subst st; simpl. rewrite IH, <- app_assoc. reflexivity.
Qed.

(** One iteration of the key loop of the write overload, by the way it
    ends. *)
Lemma WriteKeyOp_cases (key_op : ColumnOp) (r : QLWriteRequestPB) :
  match WriteKeyOp key_op r with
  | Continue _ => is_primary (desc key_op) = true /\ lowers (expr key_op)
  | Return st _ =>
      is_primary (desc key_op) = true /\ ok st = false
      /\ ~ lowers (expr key_op)
  | Abort msg =>
      is_hash (desc key_op) = false /\ is_primary (desc key_op) = false
      /\ msg = "Unexpected non primary key column in this context"%string
  | Break _ => False
  end.
Proof.
  unfold WriteKeyOp, lowers.
  pose proof (is_hash_is_primary (desc key_op)) as HP.
  destruct (is_hash (desc key_op)); [rewrite HP by reflexivity|];
    [|destruct (is_primary (desc key_op)); [|auto]];
    destruct (PTExprToPB (expr key_op)) as [[|msg] e]; simpl; auto;
    repeat split; auto; discriminate.
Qed.

Lemma write_key_loop_cases (ops : list ColumnOp) (r : QLWriteRequestPB) :
  match for_each WriteKeyOp ops r with
  | Continue _ =>
      Forall (fun o => is_primary (desc o) = true /\ lowers (expr o)) ops
  | Return st _ =>
      ok st = false /\ Exists (fun o => ~ lowers (expr o)) ops
  | Abort msg =>
      Exists (fun o => is_primary (desc o) = false) ops
      /\ msg = "Unexpected non primary key column in this context"%string
  | Break _ => False
  end.
Proof.
  revert r; induction ops as [|o ops IH]; intros r; cbn [for_each].
  - constructor.
  - pose proof (WriteKeyOp_cases o r) as C.
    destruct (WriteKeyOp o r) as [r1|r1|st r1|msg]; try contradiction.
    + specialize (IH r1).
      destruct (for_each WriteKeyOp ops r1); try contradiction.
      * constructor; auto.
      * destruct IH; split; auto.
      * destruct IH; split; auto.
    + destruct C as (_ & ? & ?); split; auto.
    + destruct C as (_ & ? & ?); split; auto.
Qed.

Lemma write_key_loop_runs (ops : list ColumnOp) (r : QLWriteRequestPB) :
  Forall (fun o => is_primary (desc o) = true /\ lowers (expr o)) ops ->
  exists r', for_each WriteKeyOp ops r = Continue r'.
Proof.
  intros HF. pose proof (write_key_loop_cases ops r) as C.
  rewrite Forall_forall in HF.
  destruct (for_each WriteKeyOp ops r) as [r1|r1|st r1|msg];
    try contradiction; eauto.
  - destruct C as (_ & C). apply Exists_exists in C as (o & Ho & C).
    destruct (HF o Ho); contradiction.
  - destruct C as (C & _). apply Exists_exists in C as (o & Ho & C).
    destruct (HF o Ho); congruence.
Qed.

(** The sub-column loop never aborts, and runs through when every argument
    and right-hand side lowers. *)
Lemma write_subcol_loop_cases (ops : list SubscriptedColumnOp)
    (r : QLWriteRequestPB) :
  match for_each WriteSubColOp ops r with
  | Continue _ => True
  | Return st _ => ok st = false
  | Abort _ | Break _ => False
  end.
Proof.
  revert r; induction ops as [|o ops IH]; intros r; cbn [for_each]; auto.
  unfold WriteSubColOp at 1.
  destruct (lower_subscript_args (sc_args o) []) as [[|m] args_pb]; simpl;
    [|reflexivity].
  destruct (PTExprToPB (sc_expr o)) as [[|m] e]; simpl; [|reflexivity].
  apply IH.
Qed.

Lemma write_subcol_loop_runs (ops : list SubscriptedColumnOp)
    (r : QLWriteRequestPB) :
  Forall (fun o => Forall lowers (sc_args o) /\ lowers (sc_expr o)) ops ->
  exists r', for_each WriteSubColOp ops r = Continue r'.
Proof.
  intros H; revert r; induction H as [|o ops (Ha & He) _ IH]; intros r;
    cbn [for_each]; eauto.
  unfold WriteSubColOp at 1.
  rewrite (lower_subscript_args_ok _ [] Ha). simpl.
  unfold lowers in He. destruct (PTExprToPB (sc_expr o)) as [st e].
  simpl in He; subst st; simpl. apply IH.
Qed.

(** C7.  The fatal branches of the write overload.  Barring lowering
    failures on the key ops before it, a key op on a column that is neither
    hash nor range primary key aborts the process, and so does a non-empty
    [where_ops] once the key ops are through; with either, the function
    never returns [OK].  When every key op is on a primary-key column and
    [where_ops] is empty the process is not aborted, and the function
    returns [OK] when every expression lowers. *)
Theorem write_fatal_branches (req0 : QLWriteRequestPB)
    (key_where_ops where_ops : list ColumnOp)
    (subcol_where_ops : list SubscriptedColumnOp) :
  (forall pre key_op post,
      key_where_ops = pre ++ key_op :: post ->
      Forall (fun o => is_primary (desc o) = true /\ lowers (expr o)) pre ->
      is_hash (desc key_op) = false -> is_primary (desc key_op) = false ->
      WhereClauseToPB_write req0 key_where_ops where_ops subcol_where_ops
      = Fatal "Unexpected non primary key column in this context")
  /\ (Forall (fun o => is_primary (desc o) = true /\ lowers (expr o))
        key_where_ops ->
      where_ops <> [] ->
      WhereClauseToPB_write req0 key_where_ops where_ops subcol_where_ops
      = Fatal "Check failed: where_ops.empty() Server doesn't support range operation yet")
  /\ (Exists (fun o => is_primary (desc o) = false) key_where_ops
      \/ where_ops <> [] ->
      forall r,
        WhereClauseToPB_write req0 key_where_ops where_ops subcol_where_ops
        <> Returned OK r)
  /\ (Forall (fun o => is_primary (desc o) = true) key_where_ops ->
      where_ops = [] ->
      exists st r,
        WhereClauseToPB_write req0 key_where_ops where_ops subcol_where_ops
        = Returned st r)
  /\ (Forall (fun o => is_primary (desc o) = true /\ lowers (expr o))
        key_where_ops ->
      where_ops = [] ->
      Forall (fun o => Forall lowers (sc_args o) /\ lowers (sc_expr o))
        subcol_where_ops ->
      exists r,
        WhereClauseToPB_write req0 key_where_ops where_ops subcol_where_ops
        = Returned OK r).
Proof.
  unfold WhereClauseToPB_write, and_then.
  split; [|split; [|split; [|split]]].
  - intros pre key_op post -> Hpre Hh Hp.
    destruct (write_key_loop_runs pre req0 Hpre) as (r1 & E).
    rewrite for_each_app, E. cbn [for_each].
    unfold WriteKeyOp. rewrite Hh, Hp. reflexivity.
  - intros Hk Hw. destruct (write_key_loop_runs _ req0 Hk) as (r1 & ->).
    destruct where_ops; [congruence | reflexivity].
  - intros H r. pose proof (write_key_loop_cases key_where_ops req0) as C.
    destruct (for_each WriteKeyOp key_where_ops req0) as [r1|r1|st r1|msg];
      try contradiction; simpl.
    + destruct where_ops as [|w ws]; [|discriminate].
      destruct H as [H|H]; [|congruence].
      apply Exists_exists in H as (o & Ho & H).
      rewrite Forall_forall in C. destruct (C o Ho); congruence.
    + destruct C as (C & _). intros [= -> _]. discriminate.
    + discriminate.
  - intros Hk ->. pose proof (write_key_loop_cases key_where_ops req0) as C.
    destruct (for_each WriteKeyOp key_where_ops req0) as [r1|r1|st r1|msg];
      try contradiction; simpl; eauto.
    + pose proof (write_subcol_loop_cases subcol_where_ops r1) as D.
      destruct (for_each WriteSubColOp subcol_where_ops r1);
        try contradiction; simpl; eauto.
    + destruct C as (C & _). apply Exists_exists in C as (o & Ho & C).
      rewrite Forall_forall in Hk. specialize (Hk o Ho). congruence.
  - intros Hk -> Hs. destruct (write_key_loop_runs _ req0 Hk) as (r1 & ->).
    simpl. destruct (write_subcol_loop_runs _ r1 Hs) as (r2 & ->).
    simpl; eauto.
Qed.

End WritePath.

(** ** The properties at work on literals *)

Import Literals.

Lemma token_folds (o : QLOperator) (v : Z) :
  folds_to (X := collaborators) (token o v) (to_uint16 v).
Proof.
  exists (value (int64_value v)), (int64_value v). repeat split.
Qed.

Lemma token_GE_10_LT_20_consistent :
  bounds_consistent (X := collaborators)
    [token QL_OP_GREATER_THAN_EQUAL 10; token QL_OP_LESS_THAN 20].
Proof.
  intros op1 op2 v1 v2 lo hi [<-|[<-|[]]] [<-|[<-|[]]] F1 F2;
    rewrite (folds_to_functional _ _ _ F1 (token_folds _ _));
    rewrite (folds_to_functional _ _ _ F2 (token_folds _ _));
    simpl; try discriminate.
  intros [= <-] [= <-]. reflexivity.
Qed.

Lemma token_op_transition_table_witness :
  folds_to (X := collaborators) (token QL_OP_GREATER_THAN_EQUAL 10) 10
  /\ TokenOp (token QL_OP_GREATER_THAN_EQUAL 10) (on_entry new_read_request)
     = Continue (on_entry (set_hash_code 10 new_read_request))
  /\ TokenStage [token QL_OP_GREATER_THAN_EQUAL 10; token QL_OP_LESS_THAN 20]
       (on_entry new_read_request)
     = Continue
         (on_entry (set_max_hash_code 20 (set_hash_code 10 new_read_request))).
Proof.
  split; [exact (token_folds QL_OP_GREATER_THAN_EQUAL 10)|].
  destruct (token_op_transition_table (X := collaborators)
              (token QL_OP_GREATER_THAN_EQUAL 10) 10
              (on_entry new_read_request)
              (token_folds QL_OP_GREATER_THAN_EQUAL 10))
    as (_ & HGE & _ & _ & _ & HGELT).
  split.
  - exact (HGE eq_refl).
  - exact (HGELT (token QL_OP_LESS_THAN 20) 20
             (token_folds QL_OP_LESS_THAN 20) eq_refl eq_refl).
Defined.

Lemma eq_reduces_like_ge_lt_witness :
  100 < kMaxHashCode
  /\ TokenStage (X := collaborators) [token QL_OP_EQUAL 100]
       (on_entry new_read_request)
     = TokenStage [token QL_OP_GREATER_THAN_EQUAL 100; token QL_OP_LESS_THAN 101]
         (on_entry new_read_request)
  /\ read [] [] [] [token QL_OP_EQUAL 100] []
     = read [] [] []
         [token QL_OP_GREATER_THAN_EQUAL 100; token QL_OP_LESS_THAN 101] [].
Proof.
  split; [reflexivity|].
  destruct (eq_reduces_like_ge_lt (X := collaborators)
              (token QL_OP_EQUAL 100) (token QL_OP_GREATER_THAN_EQUAL 100)
              (token QL_OP_LESS_THAN 101) 100 (on_entry new_read_request)
              eq_refl eq_refl eq_refl
              (token_folds QL_OP_EQUAL 100)
              (token_folds QL_OP_GREATER_THAN_EQUAL 100)
              (token_folds QL_OP_LESS_THAN 101) eq_refl)
    as (H1 & _ & H3).
  split; [exact H1 | exact (H3 new_read_request [] [] [] [])].
Defined.

Lemma consistent_token_bounds_ordered_witness :
  read [] [] [] [token QL_OP_GREATER_THAN_EQUAL 10; token QL_OP_LESS_THAN 20] []
  = Returned OK
      (on_entry (set_max_hash_code 20 (set_hash_code 10 new_read_request)))
  /\ 10 < 20
  /\ read [] [] [] [token QL_OP_EQUAL 100] []
     = Returned OK
         (on_entry (set_max_hash_code 101 (set_hash_code 100 new_read_request)))
  /\ 100 < 101.
Proof.
  destruct (consistent_token_bounds_ordered (X := collaborators)) as (A & B).
  split; [reflexivity|]. split; [|split; [reflexivity|]].
  - exact (A new_read_request [] [] []
             [token QL_OP_GREATER_THAN_EQUAL 10; token QL_OP_LESS_THAN 20] []
             OK
             (on_entry
                (set_max_hash_code 20 (set_hash_code 10 new_read_request)))
             10 20 eq_refl eq_refl token_GE_10_LT_20_consistent
             eq_refl eq_refl eq_refl).
  - exact (A new_read_request [] [] [] [token QL_OP_EQUAL 100] [] OK
             (on_entry
                (set_max_hash_code 101 (set_hash_code 100 new_read_request)))
             100 101 eq_refl eq_refl (B (token QL_OP_EQUAL 100))
             eq_refl eq_refl eq_refl).
Defined.

(** C1 fails as stated: [token(...) >= 20 AND token(...) < 10] lowers to the
    interval [hash_code = 20], [max_hash_code = 10] with [no_results]
    false. *)
Lemma reversed_token_bounds_counterexample :
  read [] [] [] [token QL_OP_GREATER_THAN_EQUAL 20; token QL_OP_LESS_THAN 10] []
  = Returned OK
      {| req := {| hashed_column_values := []; hash_code := Some 20;
                   max_hash_code := Some 10; where_expr := None |};
         no_results := false |}
  /\ ~ interval_ordered_or_empty
         {| req := {| hashed_column_values := []; hash_code := Some 20;
                      max_hash_code := Some 10; where_expr := None |};
            no_results := false |}.
Proof.
  split; [reflexivity|].
  intros [H|H]; [|discriminate].
  specialize (H 20 10 eq_refl eq_refl). lia.
Qed.

Lemma multi_valued_IN_demotes_key_ops_witness :
  read [col h1 QL_OP_IN (Collection [7; 8; 9])] [] [] [] []
  = Returned OK
      (on_entry
         (set_where_condition
            (Build_QLConditionPB QL_OP_AND
               [comparison (col h1 QL_OP_IN (Collection [7; 8; 9]))])
            new_read_request))
  /\ hashed_column_values
       (set_where_condition
          (Build_QLConditionPB QL_OP_AND
             [comparison (col h1 QL_OP_IN (Collection [7; 8; 9]))])
          new_read_request) = [].
Proof.
  split; [reflexivity|].
  refine (proj1 (multi_valued_IN_demotes_key_ops (X := collaborators)
                   new_read_request
                   [col h1 QL_OP_IN (Collection [7; 8; 9])] [] [] [] []
                   (on_entry
                      (set_where_condition
                         (Build_QLConditionPB QL_OP_AND
                            [comparison
                               (col h1 QL_OP_IN (Collection [7; 8; 9]))])
                         new_read_request))
                   eq_refl eq_refl _)).
  apply Exists_cons_hd. split; [reflexivity|]. simpl. lia.
Defined.

(** C3 fails as stated: with an empty [IN] before the multi-valued one the
    function returns at the empty [IN]; the slot of the empty [IN] stays in
    [hashed_column_values] and no predicate is written. *)
Lemma empty_IN_before_multi_valued_IN_counterexample :
  is_hash (desc (col h2 QL_OP_IN (Collection [7; 8]))) = true
  /\ multi_valued_IN (col h2 QL_OP_IN (Collection [7; 8]))
  /\ read [col h1 QL_OP_IN (Collection []); col h2 QL_OP_IN (Collection [7; 8])]
       [] [] [] []
     = Returned OK
         {| req := {| hashed_column_values := [value (list_value [])];
                      hash_code := None; max_hash_code := None;
                      where_expr := None |};
            no_results := true |}
  /\ [value (list_value [])] <> @nil QLExpressionPB
  /\ (forall c, @None QLExpressionPB <> Some (condition c)).
Proof.
  split; [reflexivity|]. split; [split; [reflexivity | simpl; lia]|].
  split; [reflexivity|]. split; discriminate.
Qed.

Lemma singleton_IN_binds_like_equality_witness :
  ReadKeyOp (col h1 QL_OP_IN (Collection [7])) (on_entry new_read_request, true)
  = ReadKeyOp (col h1 QL_OP_EQUAL (Const 7)) (on_entry new_read_request, true)
  /\ read [col h1 QL_OP_IN (Collection [7])] [] [] [] []
     = Returned OK
         {| req := {| hashed_column_values := [value (int64_value 7)];
                      hash_code := None; max_hash_code := None;
                      where_expr := None |};
            no_results := false |}.
Proof.
  destruct (singleton_IN_binds_like_equality (X := collaborators)
              (col h1 QL_OP_IN (Collection [7])) (int64_value 7)
              (on_entry new_read_request) true eq_refl eq_refl eq_refl)
    as (_ & H2 & H3).
  split.
  - symmetry.
    exact (H2 (col h1 QL_OP_EQUAL (Const 7)) eq_refl eq_refl eq_refl).
  - exact (H3 new_read_request).
Defined.

Lemma empty_result_short_circuits_witness :
  read [col h1 QL_OP_IN (Collection [1; 2])] [] []
    [token QL_OP_GREATER_THAN_EQUAL 5; token QL_OP_GREATER_THAN 65535;
     token QL_OP_LESS_THAN 3] []
  = Returned OK
      {| req := {| hashed_column_values := []; hash_code := Some 5;
                   max_hash_code := None; where_expr := None |};
         no_results := true |}
  /\ read [col h1 QL_OP_EQUAL (Const 1); col h2 QL_OP_IN (Collection []);
           col h1 QL_OP_IN (Collection [1; 2])] [] [] [] []
     = Returned OK
         {| req := {| hashed_column_values :=
                        [value (int64_value 1); value (list_value [])];
                      hash_code := None; max_hash_code := None;
                      where_expr := None |};
            no_results := true |}.
Proof.
  destruct (empty_result_short_circuits (X := collaborators)) as (A & B).
  split.
  - exact (proj1 (A new_read_request [col h1 QL_OP_IN (Collection [1; 2])]
                    [] [] [token QL_OP_GREATER_THAN_EQUAL 5]
                    (token QL_OP_GREATER_THAN 65535) [token QL_OP_LESS_THAN 3]
                    [] (on_entry (set_hash_code 5 new_read_request))
                    eq_refl eq_refl (token_folds QL_OP_GREATER_THAN 65535))).
  - exact (proj1 (B new_read_request [col h1 QL_OP_EQUAL (Const 1)]
                    (col h2 QL_OP_IN (Collection []))
                    [col h1 QL_OP_IN (Collection [1; 2])] [] [] [] []
                    (on_entry new_read_request)
                    (on_entry
                       (add_hashed_column_values (value (int64_value 1))
                          new_read_request))
                    eq_refl eq_refl eq_refl eq_refl (conj eq_refl eq_refl))).
Defined.

Lemma write_fatal_branches_witness :
  WhereClauseToPB_write new_write_request
    [col h1 QL_OP_EQUAL (Const 0); col c1 QL_OP_EQUAL (Const 0)] [] []
  = Fatal "Unexpected non primary key column in this context"
  /\ WhereClauseToPB_write new_write_request
       [col h1 QL_OP_EQUAL (Const 0)] [col c1 QL_OP_EQUAL (Const 0)] []
     = Fatal "Check failed: where_ops.empty() Server doesn't support range operation yet"
  /\ exists r,
       WhereClauseToPB_write new_write_request
         [col h1 QL_OP_EQUAL (Const 0); col r1 QL_OP_EQUAL (Const 0)] []
         [@Build_SubscriptedColumnOp collaborators c1 [Const 1] QL_OP_EQUAL
            (Const 5)]
       = Returned OK r.
Proof.
  split; [|split].
  - refine (proj1 (write_fatal_branches (X := collaborators) new_write_request
                     [col h1 QL_OP_EQUAL (Const 0); col c1 QL_OP_EQUAL (Const 0)]
                     [] [])
              [col h1 QL_OP_EQUAL (Const 0)] (col c1 QL_OP_EQUAL (Const 0)) []
              eq_refl _ eq_refl eq_refl).
    repeat constructor.
  - refine (proj1 (proj2 (write_fatal_branches (X := collaborators)
                            new_write_request [col h1 QL_OP_EQUAL (Const 0)]
                            [col c1 QL_OP_EQUAL (Const 0)] [])) _ _).
    + repeat constructor.
    + discriminate.
  - refine (proj2 (proj2 (proj2 (proj2
              (write_fatal_branches (X := collaborators) new_write_request
                 [col h1 QL_OP_EQUAL (Const 0); col r1 QL_OP_EQUAL (Const 0)]
                 []
                 [@Build_SubscriptedColumnOp collaborators c1 [Const 1]
                    QL_OP_EQUAL (Const 5)])))) _ eq_refl _);
      repeat constructor.
Defined.

Lemma no_residual_leaves_where_expr_witness :
  read [col h1 QL_OP_IN (Collection [7])] [] [] [] []
  = Returned OK
      (on_entry
         (add_hashed_column_values (value (int64_value 7)) new_read_request))
  /\ where_expr
       (add_hashed_column_values (value (int64_value 7)) new_read_request)
     = None.
Proof.
  destruct (no_residual_leaves_where_expr (X := collaborators)
              new_read_request [col h1 QL_OP_IN (Collection [7])] [])
    as (H1 & H2).
  split.
  - exact (H1 (on_entry new_read_request)
             (on_entry
                (add_hashed_column_values (value (int64_value 7))
                   new_read_request))
             eq_refl eq_refl).
  - refine (proj2 (H2 OK
                     (on_entry
                        (add_hashed_column_values (value (int64_value 7))
                           new_read_request))
                     eq_refl _) eq_refl).
    intros s1 ks [= <-]. discriminate.
Defined.

Lemma empty_IN_keeps_hashed_column_values_witness :
  exists s,
    read [col h1 QL_OP_EQUAL (Const 1); col h2 QL_OP_IN (Collection [])]
      [] [] [] []
    = Returned OK s
    /\ no_results s = true
    /\ hashed_column_values (req s)
       = [value (int64_value 1); value (list_value [])].
Proof.
  exact (empty_IN_keeps_hashed_column_values (X := collaborators)
           new_read_request [col h1 QL_OP_EQUAL (Const 1)] [] []
           (col h2 QL_OP_IN (Collection [])) [] [] []
           (on_entry new_read_request)
           (on_entry
              (add_hashed_column_values (value (int64_value 1))
                 new_read_request))
           eq_refl eq_refl eq_refl eq_refl (conj eq_refl eq_refl)).
Defined.

Lemma multi_valued_IN_hides_empty_IN_witness :
  exists s c,
    read [col h1 QL_OP_IN (Collection [7; 8]); col h2 QL_OP_IN (Collection [])]
      [] [] [] []
    = Returned OK s
    /\ no_results s = false
    /\ hashed_column_values (req s) = []
    /\ where_expr (req s) = Some (condition c)
    /\ op c = QL_OP_AND
    /\ In (comparison (col h2 QL_OP_IN (Collection []))) (operands c).
Proof.
  refine (proj2 (proj2
            (multi_valued_IN_hides_empty_IN (X := collaborators)
               new_read_request [] [] [] []
               (col h1 QL_OP_IN (Collection [7; 8]))
               (col h2 QL_OP_IN (Collection [])) [] [] []
               (on_entry new_read_request) (on_entry new_read_request)
               eq_refl eq_refl eq_refl eq_refl _ (conj eq_refl eq_refl))) _).
  - split; [reflexivity | simpl; lia].
  - repeat split; repeat constructor.
Defined.

(** * Further properties *)

(** ** The write overload: what it builds and how it fails *)

Section WriteResult.

Context {X : Collaborators}.

Lemma PTExprToPB_accepts (e : PTExpr) :
  lowers e -> PTExprToPB e = (OK, lowered e).
Proof.
  unfold lowers, lowered. destruct (PTExprToPB e) as [st pb]; simpl.
  intros ->; reflexivity.
Qed.

Lemma write_key_loop_result (ops : list ColumnOp) (r : QLWriteRequestPB) :
  Forall (fun o => is_primary (desc o) = true /\ lowers (expr o)) ops ->
  for_each WriteKeyOp ops r =
  Continue
    {| w_hashed_column_values :=
         w_hashed_column_values r
         ++ map (fun o => lowered (expr o)) (hash_ops ops);
       w_range_column_values :=
         w_range_column_values r
         ++ map (fun o => lowered (expr o)) (range_ops ops);
       w_column_values := w_column_values r |}.
Proof.
  intros H; revert r; induction H as [|o ops (Hp & Hl) _ IH]; intros r;
    cbn [for_each].
  - simpl. rewrite !app_nil_r. destruct r; reflexivity.
  - unfold WriteKeyOp at 1, hash_ops, range_ops. cbn [filter].
    rewrite Hp, (PTExprToPB_accepts _ Hl).
    destruct (is_hash (desc o)); simpl; rewrite IH; simpl;
      rewrite <- app_assoc; reflexivity.
Qed.

Lemma write_subcol_loop_result (ops : list SubscriptedColumnOp)
    (r : QLWriteRequestPB) :
  Forall subcol_lowers ops ->
  for_each WriteSubColOp ops r =
  Continue
    {| w_hashed_column_values := w_hashed_column_values r;
       w_range_column_values := w_range_column_values r;
       w_column_values := w_column_values r ++ map column_value ops |}.
Proof.
  intros H; revert r; induction H as [|o ops (Ha & He) _ IH]; intros r;
    cbn [for_each].
  - simpl. rewrite app_nil_r. destruct r; reflexivity.
  - unfold WriteSubColOp at 1.
    rewrite (lower_subscript_args_ok _ [] Ha), (PTExprToPB_accepts _ He).
    simpl. rewrite IH. simpl. rewrite <- app_assoc. reflexivity.
Qed.

(** X1.  What a successful write lowering builds.  When every key op is on
    a primary-key column, there is no column op and every expression
    lowers, the function returns [OK]; the lowered right-hand sides of the
    hash key ops are appended to [hashed_column_values] and those of the
    other key ops to [range_column_values], each in the order of the key
    ops, and one [column_values] entry per subscripted-column op is
    appended, carrying the column id, the lowered subscripts and the
    lowered right-hand side. *)
Theorem write_lowering_result (req0 : QLWriteRequestPB)
    (key_where_ops : list ColumnOp)
    (subcol_where_ops : list SubscriptedColumnOp) :
  Forall (fun o => is_primary (desc o) = true /\ lowers (expr o))
    key_where_ops ->
  Forall subcol_lowers subcol_where_ops ->
  WhereClauseToPB_write req0 key_where_ops [] subcol_where_ops =
  Returned OK
    {| w_hashed_column_values :=
         w_hashed_column_values req0
         ++ map (fun o => lowered (expr o)) (hash_ops key_where_ops);
       w_range_column_values :=
         w_range_column_values req0
         ++ map (fun o => lowered (expr o)) (range_ops key_where_ops);
       w_column_values :=
         w_column_values req0 ++ map column_value subcol_where_ops |}.
Proof.
  intros Hk Hs. unfold WhereClauseToPB_write, and_then.
  rewrite (write_key_loop_result _ req0 Hk). simpl.
  rewrite (write_subcol_loop_result _ _ Hs). reflexivity.
Qed.

(** X2.  A key expression that fails to lower ends the write before either
    fatal check.  When the key ops before it are through and the op is on a
    primary-key column, the function returns the translator's status
    unchanged, whatever follows: a later key op on a regular column and a
    non-empty [where_ops] go unnoticed.  The request keeps the slots of the
    key ops before and the slot the failed call was given. *)
Theorem write_lowering_failure_returns_first (req0 : QLWriteRequestPB)
    (pre post where_ops : list ColumnOp) (key_op : ColumnOp)
    (subcol_where_ops : list SubscriptedColumnOp)
    (st : Status) (slot : QLExpressionPB) :
  Forall (fun o => is_primary (desc o) = true /\ lowers (expr o)) pre ->
  is_primary (desc key_op) = true ->
  PTExprToPB (expr key_op) = (st, slot) -> ok st = false ->
  WhereClauseToPB_write req0 (pre ++ key_op :: post) where_ops
    subcol_where_ops =
  Returned st
    {| w_hashed_column_values :=
         w_hashed_column_values req0
         ++ map (fun o => lowered (expr o)) (hash_ops pre)
         ++ (if is_hash (desc key_op) then [slot] else []);
       w_range_column_values :=
         w_range_column_values req0
         ++ map (fun o => lowered (expr o)) (range_ops pre)
         ++ (if is_hash (desc key_op) then [] else [slot]);
       w_column_values := w_column_values req0 |}.
Proof.
  intros Hpre Hp He Hst. unfold WhereClauseToPB_write, and_then.
  rewrite for_each_app, (write_key_loop_result _ req0 Hpre). cbn [for_each].
  unfold WriteKeyOp. rewrite Hp, He. unfold RETURN_NOT_OK. rewrite Hst.
  destruct (is_hash (desc key_op)); simpl;
    unfold add_w_hashed_column_values, add_w_range_column_values; simpl;
    rewrite ?app_nil_r, <- ?app_assoc; reflexivity.
Qed.

End WriteResult.

(** ** The read overload: when it aborts *)

Section ReadAborts.

Context {X : Collaborators}.

Lemma ApplyTokenBound_aborts (o : QLOperator) (v : Z) (s : ReadState)
    (msg : string) :
  ApplyTokenBound o v s = Abort msg <->
  token_operator o = false
  /\ msg = "Unsupported operator for token-based partition key condition"%string.
Proof.
  destruct o; simpl; try destruct (v =? kMaxHashCode); simpl;
    split; try discriminate; try (intros (? & _); discriminate);
    try (intros [= <-]; auto); intros (_ & ->); reflexivity.
Qed.

Lemma token_loop_abort (ops : list PartitionKeyOp) (s : ReadState)
    (msg : string) :
  for_each TokenOp ops s = Abort msg ->
  msg = "Unsupported operator for token-based partition key condition"%string
  /\ Exists (fun o => token_operator (pk_yb_op o) = false) ops.
Proof.
  revert s; induction ops as [|o ops IH]; intros s; cbn [for_each].
  - discriminate.
  - destruct (TokenOp_cases o s) as [(v & _ & E)|(st & _ & E)]; rewrite E.
    + destruct (ApplyTokenBound (pk_yb_op o) v s) as [s1| | |m] eqn:A;
        try discriminate.
      * intros H. destruct (IH s1 H). auto.
      * intros [= ->]. apply ApplyTokenBound_aborts in A as (A & ->). auto.
    + discriminate.
Qed.

Lemma ReadKeyOp_aborts (key_op : ColumnOp) (ks : ReadState * bool)
    (msg : string) :
  ReadKeyOp key_op ks = Abort msg <->
  is_hash (desc key_op) = false
  /\ msg = "Check failed: col_desc->is_hash() Unexpected non partition column in this context"%string.
Proof.
  unfold ReadKeyOp. destruct ks as [s f].
  destruct (is_hash (desc key_op)).
  - destruct (PTExprToPB (expr key_op)) as [[|m] pb]; simpl;
      [destruct (is_QL_OP_IN (yb_op key_op));
       [destruct (list_value_elems (get_value pb)) as [|? [|? ?]]|]|];
      split; try discriminate; intros (? & _); discriminate.
  - split; [intros [= <-]; auto | intros (_ & ->); reflexivity].
Qed.

Lemma key_loop_abort (ops : list ColumnOp) (ks : ReadState * bool)
    (msg : string) :
  for_each ReadKeyOp ops ks = Abort msg ->
  msg = "Check failed: col_desc->is_hash() Unexpected non partition column in this context"%string
  /\ Exists (fun o => is_hash (desc o) = false) ops.
Proof.
  revert ks; induction ops as [|o ops IH]; intros ks; cbn [for_each].
  - discriminate.
  - destruct (ReadKeyOp o ks) as [ks1| | |m] eqn:E; try discriminate.
    + intros H. destruct (IH ks1 H). auto.
    + intros [= ->]. apply ReadKeyOp_aborts in E as (E & ->). auto.
Qed.

Lemma WhereStage_never_aborts (flag : bool)
    (key_where_ops where_ops : list ColumnOp)
    (subcol_where_ops : list SubscriptedColumnOp) (func_ops : list FuncOp)
    (s : ReadState) (msg : string) :
  WhereStage flag key_where_ops where_ops subcol_where_ops func_ops s
  <> Fatal msg.
Proof.
  unfold WhereStage.
  destruct (flag && is_nil where_ops && is_nil subcol_where_ops
            && is_nil func_ops); [discriminate|].
  pose proof (BuildWhere_cases flag key_where_ops where_ops subcol_where_ops
                func_ops (mutable_condition (where_expr (req s)))) as C.
  destruct (BuildWhere _ _ _ _ _ _); try contradiction; discriminate.
Qed.

(** X3.  The only ways the read overload aborts the process.  An abort
    carries one of the two messages of the source, and comes from a token op
    whose operator the [switch] has no case for, or from a key op on a
    column that is not a hash column.  When every token op has one of the
    five comparison operators and every key op is on a hash column, the
    function returns: lowering and folding errors, however many, end in a
    status, never in an abort. *)
Theorem read_aborts_only_on_analyzer_errors (req0 : QLReadRequestPB)
    (key_where_ops where_ops : list ColumnOp)
    (subcol_where_ops : list SubscriptedColumnOp)
    (partition_key_ops : list PartitionKeyOp) (func_ops : list FuncOp) :
  (forall msg,
      WhereClauseToPB_read req0 key_where_ops where_ops subcol_where_ops
        partition_key_ops func_ops = Fatal msg ->
      (msg = "Unsupported operator for token-based partition key condition"%string
       /\ Exists (fun o => token_operator (pk_yb_op o) = false)
            partition_key_ops)
      \/ (msg = "Check failed: col_desc->is_hash() Unexpected non partition column in this context"%string
          /\ Exists (fun o => is_hash (desc o) = false) key_where_ops))
  /\ (Forall (fun o => token_operator (pk_yb_op o) = true) partition_key_ops ->
      Forall (fun o => is_hash (desc o) = true) key_where_ops ->
      exists st s,
        WhereClauseToPB_read req0 key_where_ops where_ops subcol_where_ops
          partition_key_ops func_ops = Returned st s).
Proof.
  assert (A : forall msg,
      WhereClauseToPB_read req0 key_where_ops where_ops subcol_where_ops
        partition_key_ops func_ops = Fatal msg ->
      (msg = "Unsupported operator for token-based partition key condition"%string
       /\ Exists (fun o => token_operator (pk_yb_op o) = false)
            partition_key_ops)
      \/ (msg = "Check failed: col_desc->is_hash() Unexpected non partition column in this context"%string
          /\ Exists (fun o => is_hash (desc o) = false) key_where_ops)).
  { intros msg. unfold WhereClauseToPB_read, TokenStage, KeyStage.
    pose proof (token_loop_abort partition_key_ops (on_entry req0)) as T.
    destruct (for_each TokenOp partition_key_ops (on_entry req0))
      as [s1|s1|st1 s1|m]; try discriminate.
    3: { intros [= ->]. left. apply T; reflexivity. }
    all: pose proof (key_loop_abort key_where_ops (s1, true)) as K.
    all: destruct (for_each ReadKeyOp key_where_ops (s1, true))
           as [[s2 f]|[s2 f]|st2 [s2 f]|m]; try discriminate.
    all: try (intros H; exfalso; exact (WhereStage_never_aborts _ _ _ _ _ _ _ H)).
    all: intros [= ->]; right; apply K; reflexivity. }
  split; [exact A|].
  intros Hp Hk.
  destruct (WhereClauseToPB_read req0 key_where_ops where_ops subcol_where_ops
              partition_key_ops func_ops) as [st s|msg] eqn:E; eauto.
  exfalso. destruct (A msg eq_refl) as [(_ & H)|(_ & H)];
    apply Exists_exists in H as (o & Ho & H).
  - rewrite Forall_forall in Hp. specialize (Hp o Ho). congruence.
  - rewrite Forall_forall in Hk. specialize (Hk o Ho). congruence.
Qed.

(** X4.  An operator without a case aborts only after its right-hand side
    has been lowered and folded.  When the token loop reaches such an op,
    the process aborts if the right-hand side folds; if lowering or folding
    it fails, the function returns that status instead, with the state the
    loop had reached. *)
Theorem unsupported_token_operator (req0 : QLReadRequestPB)
    (key_where_ops where_ops : list ColumnOp)
    (subcol_where_ops : list SubscriptedColumnOp)
    (pre post : list PartitionKeyOp) (token_op : PartitionKeyOp)
    (func_ops : list FuncOp) (s1 : ReadState) :
  TokenStage pre (on_entry req0) = Continue s1 ->
  token_operator (pk_yb_op token_op) = false ->
  (forall v, folds_to token_op v ->
     WhereClauseToPB_read req0 key_where_ops where_ops subcol_where_ops
       (pre ++ token_op :: post) func_ops
     = Fatal "Unsupported operator for token-based partition key condition")
  /\ (forall st, fst (PTExprToPB (pk_expr token_op)) = st -> ok st = false ->
        WhereClauseToPB_read req0 key_where_ops where_ops subcol_where_ops
          (pre ++ token_op :: post) func_ops = Returned st s1)
  /\ (forall st, lowers (pk_expr token_op) ->
        fst (Evaluate (lowered (pk_expr token_op))) = st -> ok st = false ->
        WhereClauseToPB_read req0 key_where_ops where_ops subcol_where_ops
          (pre ++ token_op :: post) func_ops = Returned st s1).
Proof.
  intros Hpre Hop. unfold WhereClauseToPB_read, TokenStage in *.
  rewrite for_each_app, Hpre. cbn [for_each]. split; [|split].
  - intros v Hv. rewrite (TokenOp_folded token_op v s1 Hv).
    destruct (ApplyTokenBound (pk_yb_op token_op) v s1) eqn:A;
      try (destruct (pk_yb_op token_op); simpl in *;
           try destruct (v =? kMaxHashCode); discriminate).
    apply ApplyTokenBound_aborts in A as (_ & ->). reflexivity.
  - intros st <- Hst. unfold TokenOp.
    destruct (PTExprToPB (pk_expr token_op)) as [st' e]; simpl in *.
    rewrite Hst. reflexivity.
  - intros st Hl <- Hst. unfold TokenOp, lowers, lowered in *.
    destruct (PTExprToPB (pk_expr token_op)) as [st' e]; simpl in *.
    subst st'. simpl. destruct (Evaluate e) as [st' r]; simpl in *.
    rewrite Hst. reflexivity.
Qed.

(** X5.  The hash-column check of the key loop comes first.  When the key
    loop reaches a key op on a column that is not a hash column, the process
    aborts whatever the op's operator and right-hand side are and whatever
    follows; nothing of that op is lowered. *)
Theorem non_hash_key_op_aborts_read (req0 : QLReadRequestPB)
    (pre post where_ops : list ColumnOp) (key_op : ColumnOp)
    (subcol_where_ops : list SubscriptedColumnOp)
    (partition_key_ops : list PartitionKeyOp) (func_ops : list FuncOp)
    (s1 s2 : ReadState) :
  TokenStage partition_key_ops (on_entry req0) = Continue s1 ->
  for_each ReadKeyOp pre (s1, true) = Continue (s2, true) ->
  is_hash (desc key_op) = false ->
  WhereClauseToPB_read req0 (pre ++ key_op :: post) where_ops subcol_where_ops
    partition_key_ops func_ops
  = Fatal "Check failed: col_desc->is_hash() Unexpected non partition column in this context".
Proof.
  intros Ht Hpre Hh. unfold WhereClauseToPB_read, KeyStage.
  rewrite Ht, for_each_app, Hpre. cbn [for_each].
  destruct (ReadKeyOp key_op (s2, true)) eqn:E;
    try (unfold ReadKeyOp in E; rewrite Hh in E; discriminate).
  apply ReadKeyOp_aborts in E as (_ & ->). reflexivity.
Qed.

End ReadAborts.

(** ** The read overload: what it builds *)

Section ReadResult.

Context {X : Collaborators}.

Lemma lower_subscript_args_cases (args : list PTExpr)
    (acc : list QLExpressionPB) :
  (Forall lowers args
   /\ lower_subscript_args args acc = (OK, acc ++ map lowered args))
  \/ (~ Forall lowers args
      /\ ok (fst (lower_subscript_args args acc)) = false
      /\ exists e, fst (PTExprToPB e) = fst (lower_subscript_args args acc)).
Proof.
  revert acc; induction args as [|a args IH]; intros acc; simpl.
  - left. rewrite app_nil_r. auto.
  - destruct (PTExprToPB a) as [st e] eqn:E.
    destruct (PTExprToPB_lowered a st e E) as (El & Hl).
    destruct st as [|m]; simpl.
    + destruct (IH (acc ++ [e])) as [(HF & ->)|(HF & Hst & Hex)].
      * left. split.
        -- constructor; auto. apply Hl; reflexivity.
        -- rewrite El, <- app_assoc. reflexivity.
      * right. split; [|auto]. intros H; inversion H; auto.
    + right. split; [|split; [reflexivity|]].
      * intros H; inversion H as [|? ? H1 _]; subst.
        apply Hl in H1. discriminate.
      * exists a. rewrite E. reflexivity.
Qed.

(** The builder of a subscripted-column comparison, by its status. *)
Lemma WhereSubColOpToPB_cases (o : SubscriptedColumnOp) :
  (subcol_lowers o
   /\ fst (WhereSubColOpToPB o) = OK
   /\ condition (snd (WhereSubColOpToPB o)) = subcol_comparison o)
  \/ (~ subcol_lowers o
      /\ ok (fst (WhereSubColOpToPB o)) = false
      /\ exists e, fst (PTExprToPB e) = fst (WhereSubColOpToPB o)).
Proof.
  unfold WhereSubColOpToPB, subcol_lowers, subcol_comparison.
  destruct (lower_subscript_args_cases (sc_args o) [])
    as [(HF & ->)|(HF & Hst & Hex)]; simpl.
  - unfold lowers at 2 4, lowered at 2 4.
    destruct (PTExprToPB (sc_expr o)) as [[|m] e] eqn:E; simpl.
    + left. auto.
    + right. split; [intros (_ & H); discriminate|].
      split; [reflexivity|]. exists (sc_expr o). rewrite E. reflexivity.
  - destruct (lower_subscript_args (sc_args o) []) as [st l]; simpl in *.
    rewrite Hst. simpl. right. split; [tauto|]. auto.
Qed.

(** The builder of a function comparison, by its status. *)
Lemma FuncOpToPB_cases (o : FuncOp) :
  (func_lowers o
   /\ fst (FuncOpToPB o) = OK
   /\ condition (snd (FuncOpToPB o)) = func_comparison o)
  \/ (~ func_lowers o
      /\ ok (fst (FuncOpToPB o)) = false
      /\ exists e, fst (PTExprToPB e) = fst (FuncOpToPB o)).
Proof.
  unfold FuncOpToPB, func_lowers, func_comparison, lowers, lowered.
  destruct (PTExprToPB (func_expr o)) as [[|m] e] eqn:E; simpl.
  - destruct (PTExprToPB (value_expr o)) as [[|m] e'] eqn:E'; simpl.
    + left. auto.
    + right. split; [intros (_ & H); discriminate|].
      split; [reflexivity|]. exists (value_expr o). rewrite E'. reflexivity.
  - right. split; [intros (H & _); discriminate|].
    split; [reflexivity|]. exists (func_expr o). rewrite E. reflexivity.
Qed.

Lemma Forall_subcol_lowers (ops : list SubscriptedColumnOp) :
  Forall (fun o => fst (WhereSubColOpToPB o) = OK) ops
  <-> Forall subcol_lowers ops.
Proof.
  split; intros H; induction H as [|o ops Ho _ IH]; constructor; auto;
    destruct (WhereSubColOpToPB_cases o) as [(? & ? & _)|(? & Hst & _)]; auto;
    [rewrite Ho in Hst; discriminate | contradiction].
Qed.

Lemma Forall_func_lowers (ops : list FuncOp) :
  Forall (fun o => fst (FuncOpToPB o) = OK) ops <-> Forall func_lowers ops.
Proof.
  split; intros H; induction H as [|o ops Ho _ IH]; constructor; auto;
    destruct (FuncOpToPB_cases o) as [(? & ? & _)|(? & Hst & _)]; auto;
    [rewrite Ho in Hst; discriminate | contradiction].
Qed.

Lemma map_subcol_comparison (ops : list SubscriptedColumnOp) :
  Forall subcol_lowers ops ->
  map (fun o => condition (snd (WhereSubColOpToPB o))) ops
  = map subcol_comparison ops.
Proof.
  intros H; induction H as [|o ops Ho _ IH]; simpl; [reflexivity|].
  rewrite IH. f_equal.
  destruct (WhereSubColOpToPB_cases o) as [(_ & _ & E)|(? & _)];
    [exact E | contradiction].
Qed.

Lemma map_func_comparison (ops : list FuncOp) :
  Forall func_lowers ops ->
  map (fun o => condition (snd (FuncOpToPB o))) ops = map func_comparison ops.
Proof.
  intros H; induction H as [|o ops Ho _ IH]; simpl; [reflexivity|].
  rewrite IH. f_equal.
  destruct (FuncOpToPB_cases o) as [(_ & _ & E)|(? & _)];
    [exact E | contradiction].
Qed.

(** The residual operands of a lowering whose expressions all lower, with
    the shape of each spelled out. *)
Lemma residual_operands_shapes (flag : bool)
    (key_where_ops where_ops : list ColumnOp)
    (subcol_where_ops : list SubscriptedColumnOp) (func_ops : list FuncOp) :
  residual_lowers flag key_where_ops where_ops subcol_where_ops func_ops ->
  residual_operands flag key_where_ops where_ops subcol_where_ops func_ops
  = (if flag then [] else map comparison key_where_ops)
    ++ map comparison where_ops
    ++ map subcol_comparison subcol_where_ops
    ++ map func_comparison func_ops.
Proof.
  intros (_ & _ & Hs & Hf). unfold residual_operands.
  rewrite (map_subcol_comparison _ (proj1 (Forall_subcol_lowers _) Hs)).
  rewrite (map_func_comparison _ (proj1 (Forall_func_lowers _) Hf)).
  reflexivity.
Qed.

(** The key loop over ops that all bind. *)
Lemma key_loop_binds (ops : list ColumnOp) (s : ReadState) (flag : bool) :
  Forall (fun o => is_hash (desc o) = true /\ lowers (expr o)
                   /\ ~ empty_IN o /\ ~ multi_valued_IN o) ops ->
  for_each ReadKeyOp ops (s, flag)
  = Continue
      ({| req :=
            {| hashed_column_values :=
                 hashed_column_values (req s) ++ map key_slot ops;
               hash_code := hash_code (req s);
               max_hash_code := max_hash_code (req s);
               where_expr := where_expr (req s) |};
          no_results := no_results s |}, flag).
Proof.
  intros H; revert s; induction H as [|o ops (Hh & Hl & He & Hm) _ IH];
    intros s; cbn [for_each map].
  - rewrite app_nil_r. destruct s as [[] ?]; reflexivity.
  - rewrite (ReadKeyOp_passes o s flag Hh Hl He Hm), IH. simpl.
    rewrite <- app_assoc. reflexivity.
Qed.

(** X6.  What a read lowering that binds its keys builds.  When the token
    loop falls through, every key op is on a hash column and is no [IN] with
    zero or with several elements, and every expression lowers, the
    function returns [OK] with [no_results] false.  The bounds are those the
    token loop left; [hashed_column_values] gains one slot per key op, in
    order, the single element standing for a one-element [IN]; and
    [where_expr] is left alone when there is no column, subscripted-column
    or function op, and otherwise is an [AND] of the operands the caller's
    request had, then the comparisons of the column ops, then those of the
    subscripted-column ops, then those of the function ops. *)
Theorem read_lowering_with_bound_keys (req0 : QLReadRequestPB)
    (key_where_ops where_ops : list ColumnOp)
    (subcol_where_ops : list SubscriptedColumnOp)
    (partition_key_ops : list PartitionKeyOp) (func_ops : list FuncOp)
    (s1 : ReadState) :
  TokenStage partition_key_ops (on_entry req0) = Continue s1 ->
  Forall (fun o => is_hash (desc o) = true /\ lowers (expr o)
                   /\ ~ empty_IN o /\ ~ multi_valued_IN o) key_where_ops ->
  Forall (fun o => lowers (expr o)) where_ops ->
  Forall subcol_lowers subcol_where_ops ->
  Forall func_lowers func_ops ->
  WhereClauseToPB_read req0 key_where_ops where_ops subcol_where_ops
    partition_key_ops func_ops
  = Returned OK
      {| req :=
           {| hashed_column_values :=
                hashed_column_values req0 ++ map key_slot key_where_ops;
              hash_code := hash_code (req s1);
              max_hash_code := max_hash_code (req s1);
              where_expr :=
                if is_nil where_ops && is_nil subcol_where_ops
                   && is_nil func_ops
                then where_expr req0
                else
                  Some (condition
                          (Build_QLConditionPB QL_OP_AND
                             (operands (mutable_condition (where_expr req0))
                              ++ map comparison where_ops
                              ++ map subcol_comparison subcol_where_ops
                              ++ map func_comparison func_ops))) |};
         no_results := false |}.
Proof.
  intros Ht Hk Hw Hs Hf.
  destruct (TokenStage_frame partition_key_ops (on_entry req0) s1) as (Th & Tw);
    [rewrite Ht; reflexivity|].
  pose proof (TokenStage_no_results partition_key_ops (on_entry req0)) as Tn.
  rewrite Ht in Tn. simpl in Th, Tw, Tn.
  unfold WhereClauseToPB_read, KeyStage.
  rewrite Ht, (key_loop_binds key_where_ops s1 true Hk).
  rewrite Th, Tw, Tn. unfold WhereStage. simpl.
  destruct (is_nil where_ops && is_nil subcol_where_ops && is_nil func_ops);
    [reflexivity|].
  assert (HL : residual_lowers true key_where_ops where_ops subcol_where_ops
                 func_ops).
  { split; [discriminate|]. split; [exact Hw|].
    split; [apply Forall_subcol_lowers | apply Forall_func_lowers];
      assumption. }
  pose proof (BuildWhere_cases true key_where_ops where_ops subcol_where_ops
                func_ops (mutable_condition (where_expr req0))) as C.
  destruct (BuildWhere _ _ _ _ _ _) as [w| |st w|]; try contradiction.
  - destruct C as (-> & _). rewrite (residual_operands_shapes _ _ _ _ _ HL).
    reflexivity.
  - destruct C as (_ & C). contradiction.
Qed.

End ReadResult.

(** ** The read overload: invariants of what it returns *)

(** A loop runs through, or stops at the first element whose body does not
    fall through, with that body's result. *)
Lemma for_each_stops {A S : Type} (body : A -> S -> Flow S) (l : list A)
    (s : S) :
  (exists s', for_each body l s = Continue s')
  \/ (exists pre x post t,
        l = pre ++ x :: post
        /\ for_each body pre s = Continue t
        /\ body x t = for_each body l s
        /\ forall s', body x t <> Continue s').
Proof.
  revert s; induction l as [|x l IH]; intros s; cbn [for_each].
  - left; eauto.
  - destruct (body x s) as [s1|s1|st s1|m] eqn:E.
    + destruct (IH s1) as [H|(pre & y & post & t & -> & Hpre & Hy & Hn)];
        [left; exact H|].
      right. exists (x :: pre), y, post, t. cbn [for_each app].
      rewrite E. auto.
    + right. exists [], x, l, s. rewrite E. repeat split; discriminate.
    + right. exists [], x, l, s. rewrite E. repeat split; discriminate.
    + right. exists [], x, l, s. rewrite E. repeat split; discriminate.
Qed.

Section ReadInvariants.

Context {X : Collaborators}.

Lemma ApplyTokenBound_returns (o : QLOperator) (v : Z) (s s' : ReadState)
    (st : Status) :
  ApplyTokenBound o v s = Return st s' ->
  o = QL_OP_GREATER_THAN /\ v = kMaxHashCode /\ st = OK
  /\ s' = set_no_results true s.
Proof.
  destruct o; simpl; try discriminate;
    destruct (v =? kMaxHashCode) eqn:E; simpl; try discriminate.
  intros [= <- <-]. apply Z.eqb_eq in E. auto.
Qed.

(** A return out of the token loop: a collaborator's error with the state
    untouched, or [GT] of the largest hash code. *)
Lemma TokenOp_returns (token_op : PartitionKeyOp) (s s' : ReadState)
    (st : Status) :
  TokenOp token_op s = Return st s' ->
  (ok st = false /\ from_collaborator st /\ s' = s)
  \/ (st = OK /\ s' = set_no_results true s
      /\ pk_yb_op token_op = QL_OP_GREATER_THAN
      /\ folds_to token_op kMaxHashCode).
Proof.
  unfold TokenOp, folds_to, from_collaborator.
  destruct (PTExprToPB (pk_expr token_op)) as [[|m] e] eqn:E; simpl.
  - destruct (Evaluate e) as [[|m] r] eqn:R; simpl.
    + intros H. apply ApplyTokenBound_returns in H as (Ho & Hv & -> & ->).
      right. repeat split; auto. exists e, r. auto.
    + intros [= <- <-]. left. repeat split; auto.
      right. exists e. rewrite R. reflexivity.
  - intros [= <- <-]. left. repeat split; auto.
    left. exists (pk_expr token_op). rewrite E. reflexivity.
Qed.

Lemma token_loop_continues_no_results (ops : list PartitionKeyOp)
    (s t : ReadState) :
  for_each TokenOp ops s = Continue t -> no_results t = no_results s.
Proof.
  intros H. pose proof (TokenStage_no_results ops s) as N.
  unfold TokenStage in N. rewrite H in N. exact N.
Qed.

(** Where [where_expr] stands after a read that returns [OK]: as the caller
    gave it, or the [AND] of the caller's operands and the residual ones. *)
Lemma read_where_expr_cases (req0 : QLReadRequestPB)
    (key_where_ops where_ops : list ColumnOp)
    (subcol_where_ops : list SubscriptedColumnOp)
    (partition_key_ops : list PartitionKeyOp) (func_ops : list FuncOp)
    (s : ReadState) :
  WhereClauseToPB_read req0 key_where_ops where_ops subcol_where_ops
    partition_key_ops func_ops = Returned OK s ->
  where_expr (req s) = where_expr req0
  \/ (exists flag,
        residual_lowers flag key_where_ops where_ops subcol_where_ops func_ops
        /\ where_expr (req s) =
           Some (condition
                   (Build_QLConditionPB QL_OP_AND
                      (operands (mutable_condition (where_expr req0))
                       ++ residual_operands flag key_where_ops where_ops
                            subcol_where_ops func_ops)))).
Proof.
  unfold WhereClauseToPB_read, KeyStage.
  pose proof (fun t => TokenStage_frame partition_key_ops (on_entry req0) t)
    as TF.
  destruct (TokenStage partition_key_ops (on_entry req0))
    as [s1|s1|st1 s1|m]; try discriminate.
  3: { intros [= _ <-]. left. apply (TF s1 eq_refl). }
  all: destruct (TF s1 eq_refl) as (_ & TW); simpl in TW.
  all: pose proof (fun t f => key_loop_frame key_where_ops s1 t true f) as KF.
  all: destruct (for_each ReadKeyOp key_where_ops (s1, true))
         as [[s2 f]|[s2 f]|st2 [s2 f]|m]; try discriminate.
  all: destruct (KF s2 f eq_refl) as (_ & _ & KW).
  all: try (intros [= _ <-]; left; congruence).
  all: unfold WhereStage;
       destruct (f && is_nil where_ops && is_nil subcol_where_ops
                 && is_nil func_ops);
       [intros [= <-]; left; congruence|].
  all: pose proof (BuildWhere_cases f key_where_ops where_ops subcol_where_ops
                     func_ops (mutable_condition (where_expr (req s2)))) as C.
  all: destruct (BuildWhere _ _ _ _ _ _) as [w| |st w|]; try contradiction.
  all: try (destruct C as (C & _); intros [= -> _]; discriminate).
  all: destruct C as (-> & HL); intros [= <-]; right; exists f;
       split; [exact HL|]; simpl; rewrite KW, TW; reflexivity.
Qed.

Lemma Forall_binary_comparison (flag : bool)
    (key_where_ops where_ops : list ColumnOp)
    (subcol_where_ops : list SubscriptedColumnOp) (func_ops : list FuncOp) :
  Forall binary_comparison
    ((if flag then [] else map comparison key_where_ops)
     ++ map comparison where_ops
     ++ map subcol_comparison subcol_where_ops
     ++ map func_comparison func_ops).
Proof.
  unfold binary_comparison.
  repeat (apply Forall_app; split); try (destruct flag; [constructor|]);
    apply Forall_forall; intros e He; apply in_map_iff in He as (o & <- & _);
    unfold comparison, subcol_comparison, func_comparison; eauto.
Qed.

(** X7.  Every residual operand is a binary comparison.  After a read
    lowering that returns [OK] on a request without predicate, [where_expr]
    is unset or is an [AND] each of whose operands is a condition with
    exactly two operands: no builder leaves a half-built comparison in a
    request that is reported good. *)
Theorem residual_operands_are_binary (req0 : QLReadRequestPB)
    (key_where_ops where_ops : list ColumnOp)
    (subcol_where_ops : list SubscriptedColumnOp)
    (partition_key_ops : list PartitionKeyOp) (func_ops : list FuncOp)
    (s : ReadState) :
  where_expr req0 = None ->
  WhereClauseToPB_read req0 key_where_ops where_ops subcol_where_ops
    partition_key_ops func_ops = Returned OK s ->
  where_expr (req s) = None
  \/ (exists c, where_expr (req s) = Some (condition c)
                /\ op c = QL_OP_AND
                /\ Forall binary_comparison (operands c)).
Proof.
  intros H0 Hr.
  destruct (read_where_expr_cases _ _ _ _ _ _ _ Hr) as [E|(flag & HL & E)].
  - left. congruence.
  - right. eexists. split; [exact E|]. split; [reflexivity|].
    rewrite H0. simpl. rewrite (residual_operands_shapes _ _ _ _ _ HL).
    apply Forall_binary_comparison.
Qed.

(** X9.  [no_results] is raised only by the two emptiness tests.  A read
    that returns with [no_results] set returns [OK], has left [where_expr]
    as the caller gave it, and has met a token op [GT] whose right-hand side
    folds to the largest hash code or a key op on a hash column that is an
    [IN] whose lowered list has no element. *)
Theorem no_results_only_from_emptiness_tests (req0 : QLReadRequestPB)
    (key_where_ops where_ops : list ColumnOp)
    (subcol_where_ops : list SubscriptedColumnOp)
    (partition_key_ops : list PartitionKeyOp) (func_ops : list FuncOp)
    (st : Status) (s : ReadState) :
  WhereClauseToPB_read req0 key_where_ops where_ops subcol_where_ops
    partition_key_ops func_ops = Returned st s ->
  no_results s = true ->
  st = OK
  /\ where_expr (req s) = where_expr req0
  /\ ((exists pre token_op post,
          partition_key_ops = pre ++ token_op :: post
          /\ pk_yb_op token_op = QL_OP_GREATER_THAN
          /\ folds_to token_op kMaxHashCode)
      \/ (exists pre key_op post,
            key_where_ops = pre ++ key_op :: post
            /\ is_hash (desc key_op) = true /\ lowers (expr key_op)
            /\ empty_IN key_op)).
Proof.
  unfold WhereClauseToPB_read, TokenStage, KeyStage. intros Hr Hn.
  destruct (for_each_stops TokenOp partition_key_ops (on_entry req0))
    as [(s1 & E)|(pre & o & post & t & Hl & Hpre & Ho & Hnc)].
  - rewrite E in Hr.
    destruct (TokenStage_frame partition_key_ops (on_entry req0) s1)
      as (_ & TW); [unfold TokenStage; rewrite E; reflexivity|].
    pose proof (token_loop_continues_no_results _ _ _ E) as N1.
    simpl in TW, N1.
    destruct (for_each_stops ReadKeyOp key_where_ops (s1, true))
      as [([s2 f] & K)|(kpre & k & kpost & [u g] & Kl & Kpre & Kk & Knc)].
    + rewrite K in Hr. pose proof (key_loop_cases key_where_ops s1 true) as KC.
      rewrite K in KC. destruct KC as (_ & KN & _).
      apply WhereStage_frame in Hr as (Hs & _). congruence.
    + rewrite <- Kk in Hr.
      pose proof (key_loop_cases kpre s1 true) as PC. rewrite Kpre in PC.
      destruct PC as (_ & PN & _).
      destruct (key_loop_frame kpre s1 u true g) as (_ & _ & PW);
        [rewrite Kpre; reflexivity|].
      pose proof (ReadKeyOp_cases k u g) as RC.
      destruct (ReadKeyOp k (u, g)) as [[s2 f]|[s2 f]|st2 [s2 f]|m];
        try discriminate.
      * exfalso. exact (Knc (s2, f) eq_refl).
      * destruct RC as (_ & -> & _).
        apply WhereStage_frame in Hr as (Hs & _). simpl in Hs. congruence.
      * injection Hr as -> ->.
        destruct RC as (_ & Hreq & Hh & [(-> & _ & Hlow & He)|(_ & Hk & _)]);
          [|congruence].
        split; [reflexivity|]. split; [rewrite Hreq; simpl; congruence|].
        right. exists kpre, k, kpost. auto.
  - rewrite <- Ho in Hr.
    destruct (TokenStage_frame pre (on_entry req0) t) as (_ & TW);
      [unfold TokenStage; rewrite Hpre; reflexivity|].
    pose proof (token_loop_continues_no_results _ _ _ Hpre) as N1.
    simpl in TW, N1.
    destruct (TokenOp o t) as [s1|s1|st1 s1|m] eqn:Eo; try discriminate.
    + exfalso. exact (Hnc s1 eq_refl).
    + exfalso. destruct (TokenOp_cases o t) as [(v & _ & A)|(st' & _ & A)];
        rewrite A in Eo; [|discriminate].
      destruct (pk_yb_op o); simpl in Eo; try discriminate;
        destruct (v =? kMaxHashCode); discriminate.
    + injection Hr as -> ->.
      apply TokenOp_returns in Eo
        as [(_ & _ & ->)|(-> & -> & Hop & Hf)]; [congruence|].
      split; [reflexivity|]. split; [exact TW|]. left.
      exists pre, o, post. auto.
Qed.

End ReadInvariants.

(** ** Bounds and bindings of a returned read *)

Section ReadBounds.

Context {X : Collaborators}.

Lemma folds_to_uint16 (token_op : PartitionKeyOp) (v : Z) :
  folds_to token_op v -> 0 <= v <= kMaxHashCode.
Proof.
  intros (e & r & _ & _ & ->). unfold to_uint16, kMaxHashCode.
  pose proof (Z.mod_pos_bound (CqlToYBHashCode (get_int64_value r)) 65536).
  lia.
Qed.

Lemma written_bounds_fit (o : QLOperator) (v b : Z) :
  0 <= v <= kMaxHashCode ->
  lower_bound o v = Some b \/ upper_bound o v = Some b ->
  0 <= b <= kMaxHashCode.
Proof.
  intros Hv. unfold lower_bound, upper_bound.
  destruct o; try (intros [H|H]; discriminate);
    destruct (v =? kMaxHashCode) eqn:E;
    try apply Z.eqb_neq in E;
    intros [H|H]; try discriminate; injection H as <-; lia.
Qed.

(** X10.  The bounds stay within 16 bits.  After a read that returns, each
    of [hash_code] and [max_hash_code] is as the caller gave it or is a
    value between 0 and the largest hash code: the [+ 1] of [GT], [LE] and
    [EQ] never leaves the range, and nothing after the token loop writes
    the bounds. *)
Theorem read_bounds_fit_uint16 (req0 : QLReadRequestPB)
    (key_where_ops where_ops : list ColumnOp)
    (subcol_where_ops : list SubscriptedColumnOp)
    (partition_key_ops : list PartitionKeyOp) (func_ops : list FuncOp)
    (st : Status) (s : ReadState) :
  WhereClauseToPB_read req0 key_where_ops where_ops subcol_where_ops
    partition_key_ops func_ops = Returned st s ->
  (hash_code (req s) = hash_code req0
   \/ exists lo, hash_code (req s) = Some lo /\ 0 <= lo <= kMaxHashCode)
  /\ (max_hash_code (req s) = max_hash_code req0
      \/ exists hi, max_hash_code (req s) = Some hi
                    /\ 0 <= hi <= kMaxHashCode)
  /\ (partition_key_ops = [] ->
      hash_code (req s) = hash_code req0
      /\ max_hash_code (req s) = max_hash_code req0).
Proof.
  intros Hr.
  apply read_bounds_from_token_loop in Hr as (s1 & Hs1 & -> & ->).
  split; [|split].
  - apply TokenStage_bounds in Hs1 as ([B|(o & v & lo & _ & F & L & B)] & _);
      [left; exact B|].
    right. exists lo. split; [exact B|].
    apply (written_bounds_fit (pk_yb_op o) v lo (folds_to_uint16 o v F)); auto.
  - apply TokenStage_bounds in Hs1 as (_ & [B|(o & v & hi & _ & F & U & B)]);
      [left; exact B|].
    right. exists hi. split; [exact B|].
    apply (written_bounds_fit (pk_yb_op o) v hi (folds_to_uint16 o v F)); auto.
  - intros ->. injection Hs1 as <-. auto.
Qed.

Lemma key_loop_breaks_at_multi (ops : list ColumnOp) (ks ks' : ReadState * bool) :
  for_each ReadKeyOp ops ks = Break ks' -> Exists multi_valued_IN ops.
Proof.
  intros H.
  destruct (for_each_stops ReadKeyOp ops ks)
    as [(t & E)|(pre & k & post & [u g] & -> & _ & Hk & _)]; [congruence|].
  rewrite H in Hk. pose proof (ReadKeyOp_cases k u g) as RC.
  rewrite Hk in RC. destruct ks' as [s' f'].
  destruct RC as (_ & _ & _ & _ & Hm).
  apply Exists_exists. exists k. split; [|exact Hm].
  apply in_or_app; right; left; reflexivity.
Qed.

(** X11.  Key bindings are all or nothing.  After a read that returns [OK]
    without declaring the result empty, either no key op is a multi-valued
    [IN] and [hashed_column_values] is what the caller gave followed by one
    slot per key op, or some key op is a multi-valued [IN] and
    [hashed_column_values] is empty, the caller's own entries included. *)
Theorem key_bindings_all_or_nothing (req0 : QLReadRequestPB)
    (key_where_ops where_ops : list ColumnOp)
    (subcol_where_ops : list SubscriptedColumnOp)
    (partition_key_ops : list PartitionKeyOp) (func_ops : list FuncOp)
    (s : ReadState) :
  WhereClauseToPB_read req0 key_where_ops where_ops subcol_where_ops
    partition_key_ops func_ops = Returned OK s ->
  no_results s = false ->
  (Forall (fun o => ~ multi_valued_IN o) key_where_ops
   /\ hashed_column_values (req s)
      = hashed_column_values req0 ++ map key_slot key_where_ops)
  \/ (Exists multi_valued_IN key_where_ops
      /\ hashed_column_values (req s) = []).
Proof.
  unfold WhereClauseToPB_read, KeyStage. intros Hr Hn.
  pose proof (TokenStage_no_results partition_key_ops (on_entry req0)) as N.
  pose proof (fun t => TokenStage_never_breaks partition_key_ops
                         (on_entry req0) t) as NB.
  pose proof (fun t => TokenStage_frame partition_key_ops (on_entry req0) t)
    as TF.
  destruct (TokenStage partition_key_ops (on_entry req0))
    as [s1|s1|st1 s1|m]; try discriminate.
  2: { exfalso; exact (NB s1 eq_refl). }
  2: { injection Hr as -> ->. congruence. }
  destruct (TF s1 eq_refl) as (TH & _). simpl in TH.
  pose proof (key_loop_cases key_where_ops s1 true) as C.
  pose proof (fun t => key_loop_breaks_at_multi key_where_ops (s1, true) t)
    as KB.
  destruct (for_each ReadKeyOp key_where_ops (s1, true))
    as [[s2 f]|[s2 f]|st2 [s2 f]|m]; try discriminate.
  - destruct C as (_ & _ & C & HF).
    apply WhereStage_frame in Hr as (_ & -> & _). left. split; [exact HF|].
    congruence.
  - destruct C as (_ & _ & C).
    apply WhereStage_frame in Hr as (_ & -> & _). right.
    split; [exact (KB (s2, f) eq_refl) | exact C].
  - injection Hr as -> ->.
    destruct C as [(_ & C)|(C & _)]; [congruence | discriminate].
Qed.

End ReadBounds.

(** ** Where error statuses come from *)

Section ErrorStatuses.

Context {X : Collaborators}.

Lemma and_then_returns {S : Type} (f : Flow S) (k : S -> Flow S)
    (st : Status) (s : S) :
  and_then f k = Return st s ->
  f = Return st s
  \/ exists t, (f = Continue t \/ f = Break t) /\ k t = Return st s.
Proof.
  unfold and_then. destruct f; simpl; eauto; discriminate.
Qed.

Lemma AddOperand_loop_returns {A : Type} (ToPB : A -> Status * QLConditionPB)
    (ops : list A) (w w' : QLConditionPB) (st : Status) :
  for_each (AddOperand ToPB) ops w = Return st w' ->
  ok st = false /\ exists o, In o ops /\ fst (ToPB o) = st.
Proof.
  intros H.
  destruct (for_each_stops (AddOperand ToPB) ops w)
    as [(t & E)|(pre & o & post & t & -> & _ & Ho & _)]; [congruence|].
  rewrite H in Ho. unfold AddOperand, RETURN_NOT_OK in Ho.
  destruct (ToPB o) as [st' c] eqn:E. destruct (ok st') eqn:Eok;
    [discriminate|]. injection Ho as -> _. split; [exact Eok|].
  exists o. split; [apply in_or_app; right; left; reflexivity|].
  rewrite E; reflexivity.
Qed.

Lemma BuildWhere_returns (flag : bool)
    (key_where_ops where_ops : list ColumnOp)
    (subcol_where_ops : list SubscriptedColumnOp) (func_ops : list FuncOp)
    (w w' : QLConditionPB) (st : Status) :
  BuildWhere flag key_where_ops where_ops subcol_where_ops func_ops w
  = Return st w' ->
  ok st = false /\ exists e, fst (PTExprToPB e) = st.
Proof.
  assert (K : forall ops u u',
             for_each (AddOperand WhereOpToPB) ops u = Return st u' ->
             ok st = false /\ exists e, fst (PTExprToPB e) = st).
  { intros ops u u' H. apply AddOperand_loop_returns in H as (Hst & o & _ & E).
    split; [exact Hst|]. exists (expr o).
    destruct (WhereOpToPB_comparison o) as (_ & <-). exact E. }
  unfold BuildWhere. intros H.
  apply and_then_returns in H as [H|(w1 & _ & H)].
  { destruct flag; simpl in H; [discriminate | eauto]. }
  apply and_then_returns in H as [H|(w2 & _ & H)]; [eauto|].
  apply and_then_returns in H as [H|(w3 & _ & H)].
  - apply AddOperand_loop_returns in H as (Hst & o & _ & E).
    split; [exact Hst|].
    destruct (WhereSubColOpToPB_cases o) as [(_ & E' & _)|(_ & _ & e & E')].
    + exfalso. rewrite E in E'. rewrite E' in Hst. discriminate.
    + exists e. congruence.
  - apply AddOperand_loop_returns in H as (Hst & o & _ & E).
    split; [exact Hst|].
    destruct (FuncOpToPB_cases o) as [(_ & E' & _)|(_ & _ & e & E')].
    + exfalso. rewrite E in E'. rewrite E' in Hst. discriminate.
    + exists e. congruence.
Qed.

Lemma ReadKeyOp_error_status (key_op : ColumnOp) (ks ks' : ReadState * bool)
    (st : Status) :
  ReadKeyOp key_op ks = Return st ks' ->
  st = OK \/ st = fst (PTExprToPB (expr key_op)).
Proof.
  unfold ReadKeyOp. destruct ks as [s f].
  destruct (is_hash (desc key_op)); [|discriminate].
  destruct (PTExprToPB (expr key_op)) as [[|m] pb]; simpl.
  - destruct (is_QL_OP_IN (yb_op key_op)); [|discriminate].
    destruct (list_value_elems (get_value pb)) as [|? [|? ?]];
      try discriminate. intros [= <- _]. auto.
  - intros [= <- _]. auto.
Qed.

Lemma WriteKeyOp_error_status (key_op : ColumnOp) (r r' : QLWriteRequestPB)
    (st : Status) :
  WriteKeyOp key_op r = Return st r' -> st = fst (PTExprToPB (expr key_op)).
Proof.
  unfold WriteKeyOp, RETURN_NOT_OK.
  destruct (is_hash (desc key_op)); [|destruct (is_primary (desc key_op))];
    try discriminate;
    destruct (PTExprToPB (expr key_op)) as [[|m] pb]; simpl;
    try discriminate; intros [= <- _]; reflexivity.
Qed.

Lemma WriteSubColOp_error_status (o : SubscriptedColumnOp)
    (r r' : QLWriteRequestPB) (st : Status) :
  WriteSubColOp o r = Return st r' -> exists e, fst (PTExprToPB e) = st.
Proof.
  unfold WriteSubColOp, RETURN_NOT_OK.
  destruct (lower_subscript_args_cases (sc_args o) [])
    as [(_ & ->)|(_ & Hst & e & E)]; simpl.
  - destruct (PTExprToPB (sc_expr o)) as [[|m] pb] eqn:P; simpl;
      [discriminate|]. intros [= <- _]. exists (sc_expr o).
    rewrite P; reflexivity.
  - destruct (lower_subscript_args (sc_args o) []) as [st' l]; simpl in *.
    rewrite Hst. intros [= <- _]. eauto.
Qed.

(** X8.  The lowering invents no error.  A status other than [OK] returned
    by the read overload is the status of some call of the expression
    translator or of the constant folder; one returned by the write overload
    is the status of some call of the expression translator. *)
Theorem error_statuses_come_from_collaborators :
  (forall req0 key_where_ops where_ops subcol_where_ops partition_key_ops
          func_ops st s,
      WhereClauseToPB_read req0 key_where_ops where_ops subcol_where_ops
        partition_key_ops func_ops = Returned st s ->
      st = OK \/ from_collaborator st)
  /\ (forall req0 key_where_ops where_ops subcol_where_ops st r,
      WhereClauseToPB_write req0 key_where_ops where_ops subcol_where_ops
      = Returned st r ->
      st = OK \/ exists e, fst (PTExprToPB e) = st).
Proof.
  split.
  - intros req0 key_where_ops where_ops subcol_where_ops partition_key_ops
      func_ops st s. unfold WhereClauseToPB_read, TokenStage, KeyStage.
    assert (W : forall f t,
               WhereStage f key_where_ops where_ops subcol_where_ops
                 func_ops t = Returned st s ->
               st = OK \/ from_collaborator st).
    { intros f t. unfold WhereStage.
      destruct (f && is_nil where_ops && is_nil subcol_where_ops
                && is_nil func_ops); [intros [= <- _]; auto|].
      destruct (BuildWhere _ _ _ _ _ _) as [w|w|st' w|m] eqn:B;
        [intros [= <- _]; auto | intros [= <- _]; auto | | discriminate].
      intros [= -> _]. apply BuildWhere_returns in B as (_ & e & E).
      right. left. eauto. }
    destruct (for_each_stops TokenOp partition_key_ops (on_entry req0))
      as [(s1 & E)|(pre & o & post & t & _ & _ & Ho & Hnc)].
    + rewrite E.
      destruct (for_each_stops ReadKeyOp key_where_ops (s1, true))
        as [([s2 f] & K)|(kpre & k & kpost & u & _ & _ & Kk & _)].
      * rewrite K. apply W.
      * rewrite <- Kk.
        destruct (ReadKeyOp k u) as [[s2 f]|[s2 f]|st2 [s2 f]|m] eqn:R;
          try discriminate; try apply W.
        intros [= -> _]. apply ReadKeyOp_error_status in R as [R|R]; auto.
        right. left. eauto.
    + rewrite <- Ho.
      destruct (TokenOp o t) as [s1|s1|st1 s1|m] eqn:R; try discriminate.
      * exfalso. exact (Hnc s1 eq_refl).
      * exfalso. destruct (TokenOp_cases o t) as [(v & _ & A)|(st' & _ & A)];
          rewrite A in R; [|discriminate].
        destruct (pk_yb_op o); simpl in R; try discriminate;
          destruct (v =? kMaxHashCode); discriminate.
      * intros [= -> _].
        apply TokenOp_returns in R as [(_ & R & _)|(R & _)]; auto.
  - intros req0 key_where_ops where_ops subcol_where_ops st r.
    unfold WhereClauseToPB_write, and_then.
    destruct (for_each_stops WriteKeyOp key_where_ops req0)
      as [(r1 & E)|(pre & o & post & t & _ & _ & Ho & Hnc)].
    + rewrite E. simpl. destruct where_ops; [|discriminate].
      destruct (for_each_stops WriteSubColOp subcol_where_ops r1)
        as [(r2 & E2)|(spre & so & spost & u & _ & _ & Hso & _)].
      * rewrite E2. intros [= <- _]. auto.
      * rewrite <- Hso.
        destruct (WriteSubColOp so u) eqn:R; simpl; try discriminate;
          try (intros [= <- _]; auto; fail).
        intros [= -> _]. right.
        exact (WriteSubColOp_error_status _ _ _ _ R).
    + rewrite <- Ho.
      pose proof (WriteKeyOp_cases o t) as C.
      destruct (WriteKeyOp o t) eqn:R; simpl; try contradiction;
        try discriminate.
      * exfalso. exact (Hnc _ eq_refl).
      * intros [= -> _]. right. exists (expr o).
        symmetry. exact (WriteKeyOp_error_status _ _ _ _ R).
Qed.

End ErrorStatuses.

(** ** Edge behaviour of the read overload *)

Section ReadEdges.

Context {X : Collaborators}.

(** X12.  The last bound written wins.  When the token loop has passed a
    token op that writes a lower bound and only [LT] and [LE] ops follow
    it, [hash_code] is that bound whatever the ops before it had written,
    smaller or larger; likewise [max_hash_code] is the upper bound of a
    token op followed only by [GT] and [GE] ops.  Bounds of the same side
    are not intersected. *)
Theorem last_token_bound_wins (pre post : list PartitionKeyOp)
    (token_op : PartitionKeyOp) (v : Z) (s0 s1 s' : ReadState) :
  TokenStage pre s0 = Continue s1 ->
  folds_to token_op v ->
  flow_state (TokenStage (pre ++ token_op :: post) s0) = Some s' ->
  (forall lo,
      lower_bound (pk_yb_op token_op) v = Some lo ->
      Forall (fun o => pk_yb_op o = QL_OP_LESS_THAN
                       \/ pk_yb_op o = QL_OP_LESS_THAN_EQUAL) post ->
      hash_code (req s') = Some lo)
  /\ (forall hi,
        upper_bound (pk_yb_op token_op) v = Some hi ->
        Forall (fun o => pk_yb_op o = QL_OP_GREATER_THAN
                         \/ pk_yb_op o = QL_OP_GREATER_THAN_EQUAL) post ->
        max_hash_code (req s') = Some hi).
Proof.
  unfold TokenStage. intros Hpre Hv.
  rewrite for_each_app, Hpre. cbn [for_each].
  rewrite (TokenOp_folded token_op v s1 Hv).
  destruct (ApplyTokenBound (pk_yb_op token_op) v s1) as [t|t|st t|m] eqn:A;
    simpl; try discriminate.
  - pose proof (ApplyTokenBound_state (pk_yb_op token_op) v s1 t) as B.
    rewrite A in B. destruct (B eq_refl) as (Bl & Bu & _).
    intros Hs'. apply (TokenStage_bounds post t s') in Hs' as (Pl & Pu).
    split.
    + intros lo Hlo HF. rewrite Hlo in Bl.
      destruct Pl as [Pl|(o & w & lo' & Ho & _ & L & _)]; [congruence|].
      rewrite Forall_forall in HF. destruct (HF o Ho) as [E|E];
        rewrite E in L; simpl in L; try discriminate.
    + intros hi Hhi HF. rewrite Hhi in Bu.
      destruct Pu as [Pu|(o & w & hi' & Ho & _ & U & _)]; [congruence|].
      rewrite Forall_forall in HF. destruct (HF o Ho) as [E|E];
        rewrite E in U; simpl in U; try discriminate.
  - exfalso. destruct (pk_yb_op token_op); simpl in A; try discriminate;
      destruct (v =? kMaxHashCode); discriminate.
  - apply ApplyTokenBound_returns in A as (Ho & -> & _).
    intros _. rewrite Ho. simpl. split; intros ? H; discriminate.
Qed.

(** X13.  An [IN] whose right-hand side does not lower to a list counts as
    empty.  The size test reads the list of the lowered value without
    checking that it is one, so when the key loop reaches an [IN] on a hash
    column whose right-hand side lowers to anything but a list value, the
    function returns [OK] with [no_results] set, as for an empty list. *)
Theorem IN_without_list_declares_empty (req0 : QLReadRequestPB)
    (pre post where_ops : list ColumnOp) (key_op : ColumnOp)
    (subcol_where_ops : list SubscriptedColumnOp)
    (partition_key_ops : list PartitionKeyOp) (func_ops : list FuncOp)
    (s1 s2 : ReadState) (pb : QLExpressionPB) :
  TokenStage partition_key_ops (on_entry req0) = Continue s1 ->
  for_each ReadKeyOp pre (s1, true) = Continue (s2, true) ->
  is_hash (desc key_op) = true -> yb_op key_op = QL_OP_IN ->
  PTExprToPB (expr key_op) = (OK, pb) ->
  (forall elems, pb <> value (list_value elems)) ->
  WhereClauseToPB_read req0 (pre ++ key_op :: post) where_ops subcol_where_ops
    partition_key_ops func_ops
  = Returned OK (set_no_results true (with_req (add_hashed_column_values pb) s2)).
Proof.
  intros Ht Hpre Hh Hop Hpb Hnl.
  destruct (PTExprToPB_lowered _ _ _ Hpb) as (El & Hl).
  rewrite <- El.
  apply (read_stops_at_empty_IN req0 pre post where_ops key_op
           subcol_where_ops partition_key_ops func_ops s1 s2 Ht Hpre Hh).
  - apply Hl; reflexivity.
  - split; [exact Hop|]. unfold in_elems. rewrite El.
    destruct pb as [|val| | | | |]; try reflexivity.
    destruct val; try reflexivity. exfalso. exact (Hnl _ eq_refl).
Qed.

(** X14.  A key expression that fails to lower ends the read.  When the key
    loop reaches a key op on a hash column whose right-hand side the
    translator rejects, the function returns the translator's status
    unchanged, whatever the operator; the request keeps the slots bound so
    far and the slot the failed call was given, and [no_results] and
    [where_expr] are untouched. *)
Theorem read_key_lowering_failure (req0 : QLReadRequestPB)
    (pre post where_ops : list ColumnOp) (key_op : ColumnOp)
    (subcol_where_ops : list SubscriptedColumnOp)
    (partition_key_ops : list PartitionKeyOp) (func_ops : list FuncOp)
    (s1 s2 : ReadState) (st : Status) (slot : QLExpressionPB) :
  TokenStage partition_key_ops (on_entry req0) = Continue s1 ->
  for_each ReadKeyOp pre (s1, true) = Continue (s2, true) ->
  is_hash (desc key_op) = true ->
  PTExprToPB (expr key_op) = (st, slot) -> ok st = false ->
  WhereClauseToPB_read req0 (pre ++ key_op :: post) where_ops subcol_where_ops
    partition_key_ops func_ops
  = Returned st (with_req (add_hashed_column_values slot) s2)
  /\ no_results s2 = false
  /\ where_expr (req s2) = where_expr req0
  /\ hashed_column_values (req s2)
     = hashed_column_values req0 ++ map key_slot pre.
Proof.
  intros Ht Hpre Hh He Hst. split; [|split; [|split]].
  - unfold WhereClauseToPB_read, KeyStage.
    rewrite Ht, for_each_app, Hpre. cbn [for_each].
    unfold ReadKeyOp. rewrite Hh, He, Hst. reflexivity.
  - pose proof (TokenStage_no_results partition_key_ops (on_entry req0)) as N.
    rewrite Ht in N. pose proof (key_loop_cases pre s1 true) as C.
    rewrite Hpre in C. destruct C as (_ & -> & _). exact N.
  - destruct (key_loop_frame pre s1 s2 true true) as (_ & _ & ->);
      [rewrite Hpre; reflexivity|].
    apply (TokenStage_frame partition_key_ops (on_entry req0) s1).
    rewrite Ht; reflexivity.
  - pose proof (key_loop_cases pre s1 true) as C.
    rewrite Hpre in C. destruct C as (_ & _ & -> & _).
    destruct (TokenStage_frame partition_key_ops (on_entry req0) s1) as (-> & _);
      [rewrite Ht; reflexivity | reflexivity].
Qed.

Lemma AddOperand_loop_fails {A : Type} (ToPB : A -> Status * QLConditionPB)
    (ops : list A) (w : QLConditionPB) :
  ~ Forall (fun o => fst (ToPB o) = OK) ops ->
  exists st w', for_each (AddOperand ToPB) ops w = Return st w'.
Proof.
  intros H. pose proof (AddOperand_loop ToPB ops w) as C.
  destruct (for_each (AddOperand ToPB) ops w); try contradiction; eauto.
  destruct C as (_ & C). contradiction.
Qed.

(** X15.  A column op that fails to lower ends the residual predicate.  When
    the right-hand side of some op of [where_ops] is rejected by the
    translator, no subscripted-column op and no function op is translated:
    the outcome is the one of the same call without them. *)
Theorem failing_column_op_stops_residual (req0 : QLReadRequestPB)
    (key_where_ops where_ops : list ColumnOp)
    (subcol_where_ops : list SubscriptedColumnOp)
    (partition_key_ops : list PartitionKeyOp) (func_ops : list FuncOp) :
  Exists (fun o => ~ lowers (expr o)) where_ops ->
  WhereClauseToPB_read req0 key_where_ops where_ops subcol_where_ops
    partition_key_ops func_ops
  = WhereClauseToPB_read req0 key_where_ops where_ops [] partition_key_ops [].
Proof.
  intros Hex.
  assert (Hne : is_nil where_ops = false).
  { destruct where_ops; [inversion Hex | reflexivity]. }
  assert (HF : ~ Forall (fun o => fst (WhereOpToPB o) = OK) where_ops).
  { rewrite Forall_lowers. intros HF. apply Exists_exists in Hex as (o & Ho & H).
    rewrite Forall_forall in HF. exact (H (HF o Ho)). }
  assert (W : forall f t,
             WhereStage f key_where_ops where_ops subcol_where_ops func_ops t
             = WhereStage f key_where_ops where_ops [] [] t).
  { intros f t. unfold WhereStage. rewrite Hne, !andb_false_r. simpl.
    unfold BuildWhere.
    destruct (if negb f
              then for_each (AddOperand WhereOpToPB) key_where_ops
                     (set_op QL_OP_AND (mutable_condition (where_expr (req t))))
              else Continue
                     (set_op QL_OP_AND (mutable_condition (where_expr (req t)))))
      as [w1|w1|st1 w1|m]; unfold and_then; simpl; try reflexivity.
    - destruct (AddOperand_loop_fails WhereOpToPB where_ops w1 HF)
        as (st & w' & ->). reflexivity.
    - destruct (AddOperand_loop_fails WhereOpToPB where_ops w1 HF)
        as (st & w' & ->). reflexivity. }
  unfold WhereClauseToPB_read.
  destruct (TokenStage partition_key_ops (on_entry req0)); try reflexivity;
    destruct (KeyStage key_where_ops s) as [[? ?]|[? ?]|? [? ?]|?];
    try reflexivity; apply W.
Qed.

End ReadEdges.

(** ** The further properties at work on literals *)

Lemma write_lowering_result_witness :
  WhereClauseToPB_write new_write_request
    [col h1 QL_OP_EQUAL (Const 1); col r1 QL_OP_EQUAL (Const 2);
     col h2 QL_OP_EQUAL (Const 3)] []
    [@Build_SubscriptedColumnOp collaborators c1 [Const 1] QL_OP_EQUAL
       (Const 5)]
  = Returned OK
      {| w_hashed_column_values :=
           [value (int64_value 1); value (int64_value 3)];
         w_range_column_values := [value (int64_value 2)];
         w_column_values :=
           [{| cv_column_id := 4;
               cv_subscript_args := [value (int64_value 1)];
               cv_expr := Some (value (int64_value 5)) |}] |}.
Proof.
  refine (write_lowering_result (X := collaborators) new_write_request
            [col h1 QL_OP_EQUAL (Const 1); col r1 QL_OP_EQUAL (Const 2);
             col h2 QL_OP_EQUAL (Const 3)]
            [@Build_SubscriptedColumnOp collaborators c1 [Const 1] QL_OP_EQUAL
               (Const 5)] _ _).
  - repeat constructor.
  - repeat constructor.
Defined.

Lemma write_lowering_failure_returns_first_witness :
  WhereClauseToPB_write new_write_request
    [col h1 QL_OP_EQUAL (Const 1); col r1 QL_OP_EQUAL (BindVar 0);
     col c1 QL_OP_EQUAL (Const 0)]
    [col c1 QL_OP_EQUAL (Const 0)] []
  = Returned (NotOK "Bind variable has no value")
      {| w_hashed_column_values := [value (int64_value 1)];
         w_range_column_values := [bind_id 0];
         w_column_values := [] |}.
Proof.
  refine (write_lowering_failure_returns_first (X := collaborators)
            new_write_request [col h1 QL_OP_EQUAL (Const 1)]
            [col c1 QL_OP_EQUAL (Const 0)] [col c1 QL_OP_EQUAL (Const 0)]
            (col r1 QL_OP_EQUAL (BindVar 0)) []
            (NotOK "Bind variable has no value") (bind_id 0)
            _ eq_refl eq_refl eq_refl).
  repeat constructor.
Defined.

Lemma read_aborts_only_on_analyzer_errors_witness :
  exists st s,
    read [col h1 QL_OP_EQUAL (BindVar 0)] [] [] [token QL_OP_LESS_THAN 5] []
    = Returned st s.
Proof.
  refine (proj2 (read_aborts_only_on_analyzer_errors (X := collaborators)
                   new_read_request [col h1 QL_OP_EQUAL (BindVar 0)] [] []
                   [token QL_OP_LESS_THAN 5] []) _ _);
    repeat constructor.
Defined.

Lemma unsupported_token_operator_witness :
  read [] [] [] [token QL_OP_IN 5] []
  = Fatal "Unsupported operator for token-based partition key condition"
  /\ read [] [] [] [@Build_PartitionKeyOp collaborators QL_OP_IN (BindVar 0)] []
     = Returned (NotOK "Bind variable has no value") (on_entry new_read_request)
  /\ read [] [] []
       [@Build_PartitionKeyOp collaborators QL_OP_IN (TokenCall 1)] []
     = Returned (NotOK "Not a constant expression")
         (on_entry new_read_request).
Proof.
  split; [|split].
  - exact (proj1 (unsupported_token_operator (X := collaborators)
                    new_read_request [] [] [] [] [] (token QL_OP_IN 5) []
                    (on_entry new_read_request) eq_refl eq_refl)
             5 (token_folds QL_OP_IN 5)).
  - exact (proj1 (proj2 (unsupported_token_operator (X := collaborators)
                    new_read_request [] [] [] [] []
                    (@Build_PartitionKeyOp collaborators QL_OP_IN (BindVar 0))
                    [] (on_entry new_read_request) eq_refl eq_refl))
             (NotOK "Bind variable has no value") eq_refl eq_refl).
  - exact (proj2 (proj2 (unsupported_token_operator (X := collaborators)
                    new_read_request [] [] [] [] []
                    (@Build_PartitionKeyOp collaborators QL_OP_IN
                       (TokenCall 1))
                    [] (on_entry new_read_request) eq_refl eq_refl))
             (NotOK "Not a constant expression") eq_refl eq_refl eq_refl).
Defined.

Lemma non_hash_key_op_aborts_read_witness :
  read [col h1 QL_OP_EQUAL (Const 1); col r1 QL_OP_EQUAL (BindVar 0)]
    [] [] [] []
  = Fatal "Check failed: col_desc->is_hash() Unexpected non partition column in this context".
Proof.
  exact (non_hash_key_op_aborts_read (X := collaborators) new_read_request
           [col h1 QL_OP_EQUAL (Const 1)] [] []
           (col r1 QL_OP_EQUAL (BindVar 0)) [] [] []
           (on_entry new_read_request)
           (on_entry
              (add_hashed_column_values (value (int64_value 1))
                 new_read_request))
           eq_refl eq_refl eq_refl).
Defined.

Lemma read_lowering_with_bound_keys_witness :
  read [col h1 QL_OP_EQUAL (Const 1); col h2 QL_OP_IN (Collection [7])]
    [col r1 QL_OP_LESS_THAN (Const 9)]
    [@Build_SubscriptedColumnOp collaborators c1 [Const 2] QL_OP_EQUAL
       (Const 5)]
    [token QL_OP_GREATER_THAN_EQUAL 10]
    [@Build_FuncOp collaborators (Const 1) (TokenCall 1) QL_OP_EQUAL]
  = Returned OK
      {| req :=
           {| hashed_column_values :=
                [value (int64_value 1); value (int64_value 7)];
              hash_code := Some 10;
              max_hash_code := None;
              where_expr :=
                Some (condition
                        (Build_QLConditionPB QL_OP_AND
                           [condition
                              (Build_QLConditionPB QL_OP_LESS_THAN
                                 [column_id 3; value (int64_value 9)]);
                            condition
                              (Build_QLConditionPB QL_OP_EQUAL
                                 [subscripted_col 4 [value (int64_value 2)];
                                  value (int64_value 5)]);
                            condition
                              (Build_QLConditionPB QL_OP_EQUAL
                                 [bfcall 0 [column_id 1];
                                  value (int64_value 1)])])) |};
         no_results := false |}.
Proof.
  refine (read_lowering_with_bound_keys (X := collaborators) new_read_request
            [col h1 QL_OP_EQUAL (Const 1); col h2 QL_OP_IN (Collection [7])]
            [col r1 QL_OP_LESS_THAN (Const 9)]
            [@Build_SubscriptedColumnOp collaborators c1 [Const 2] QL_OP_EQUAL
               (Const 5)]
            [token QL_OP_GREATER_THAN_EQUAL 10]
            [@Build_FuncOp collaborators (Const 1) (TokenCall 1) QL_OP_EQUAL]
            (on_entry (set_hash_code 10 new_read_request))
            eq_refl _ _ _ _).
  - constructor; [|constructor; [|constructor]].
    + repeat split; intros (H & _); discriminate.
    + repeat split; intros (_ & H); [discriminate | simpl in H; lia].
  - repeat constructor.
  - repeat constructor.
  - repeat constructor.
Defined.

Lemma residual_operands_are_binary_witness :
  where_expr
    (set_where_condition
       (Build_QLConditionPB QL_OP_AND
          [comparison (col h1 QL_OP_IN (Collection [7; 8; 9]))])
       new_read_request) = None
  \/ exists c,
       where_expr
         (set_where_condition
            (Build_QLConditionPB QL_OP_AND
               [comparison (col h1 QL_OP_IN (Collection [7; 8; 9]))])
            new_read_request) = Some (condition c)
       /\ op c = QL_OP_AND /\ Forall binary_comparison (operands c).
Proof.
  exact (residual_operands_are_binary (X := collaborators) new_read_request
           [col h1 QL_OP_IN (Collection [7; 8; 9])] [] [] [] []
           (on_entry
              (set_where_condition
                 (Build_QLConditionPB QL_OP_AND
                    [comparison (col h1 QL_OP_IN (Collection [7; 8; 9]))])
                 new_read_request))
           eq_refl eq_refl).
Defined.

Lemma error_statuses_come_from_collaborators_witness :
  read [col h1 QL_OP_EQUAL (BindVar 0)] [] [] [] []
  = Returned (NotOK "Bind variable has no value")
      (on_entry (add_hashed_column_values (bind_id 0) new_read_request))
  /\ (NotOK "Bind variable has no value" = OK
      \/ from_collaborator (X := collaborators)
           (NotOK "Bind variable has no value")).
Proof.
  split; [reflexivity|].
  exact (proj1 (error_statuses_come_from_collaborators (X := collaborators))
           new_read_request [col h1 QL_OP_EQUAL (BindVar 0)] [] [] [] []
           (NotOK "Bind variable has no value")
           (on_entry (add_hashed_column_values (bind_id 0) new_read_request))
           eq_refl).
Defined.

Lemma no_results_only_from_emptiness_tests_witness :
  OK = OK
  /\ where_expr (req (set_no_results true (on_entry new_read_request)))
     = where_expr new_read_request
  /\ ((exists pre token_op post,
          [token QL_OP_GREATER_THAN 65535] = pre ++ token_op :: post
          /\ pk_yb_op token_op = QL_OP_GREATER_THAN
          /\ folds_to token_op kMaxHashCode)
      \/ (exists pre key_op post,
            [col h1 QL_OP_EQUAL (Const 1)] = pre ++ key_op :: post
            /\ is_hash (desc key_op) = true /\ lowers (expr key_op)
            /\ empty_IN key_op)).
Proof.
  exact (no_results_only_from_emptiness_tests (X := collaborators)
           new_read_request [col h1 QL_OP_EQUAL (Const 1)] [] []
           [token QL_OP_GREATER_THAN 65535] [] OK
           (set_no_results true (on_entry new_read_request))
           eq_refl eq_refl).
Defined.

Lemma read_bounds_fit_uint16_witness :
  read [] [] [] [token QL_OP_GREATER_THAN 65534] []
  = Returned OK (on_entry (set_hash_code 65535 new_read_request))
  /\ (hash_code (set_hash_code 65535 new_read_request)
      = hash_code new_read_request
      \/ exists lo, hash_code (set_hash_code 65535 new_read_request) = Some lo
                    /\ 0 <= lo <= kMaxHashCode).
Proof.
  split; [reflexivity|].
  exact (proj1 (read_bounds_fit_uint16 (X := collaborators) new_read_request
                  [] [] [] [token QL_OP_GREATER_THAN 65534] [] OK
                  (on_entry (set_hash_code 65535 new_read_request))
                  eq_refl)).
Defined.

Lemma key_bindings_all_or_nothing_witness :
  read [col h1 QL_OP_EQUAL (Const 1); col h2 QL_OP_IN (Collection [7; 8])]
    [] [] [] []
  = Returned OK
      (on_entry
         (set_where_condition
            (Build_QLConditionPB QL_OP_AND
               [comparison (col h1 QL_OP_EQUAL (Const 1));
                comparison (col h2 QL_OP_IN (Collection [7; 8]))])
            new_read_request))
  /\ Exists multi_valued_IN
       [col h1 QL_OP_EQUAL (Const 1); col h2 QL_OP_IN (Collection [7; 8])]
  /\ hashed_column_values
       (set_where_condition
          (Build_QLConditionPB QL_OP_AND
             [comparison (col h1 QL_OP_EQUAL (Const 1));
              comparison (col h2 QL_OP_IN (Collection [7; 8]))])
          new_read_request) = [].
Proof.
  split; [reflexivity|].
  destruct (key_bindings_all_or_nothing (X := collaborators) new_read_request
              [col h1 QL_OP_EQUAL (Const 1);
               col h2 QL_OP_IN (Collection [7; 8])]
              [] [] [] []
              (on_entry
                 (set_where_condition
                    (Build_QLConditionPB QL_OP_AND
                       [comparison (col h1 QL_OP_EQUAL (Const 1));
                        comparison (col h2 QL_OP_IN (Collection [7; 8]))])
                    new_read_request))
              eq_refl eq_refl) as [(_ & H)|H].
  - discriminate H.
  - exact H.
Defined.

Lemma last_token_bound_wins_witness :
  TokenStage (X := collaborators)
    [token QL_OP_GREATER_THAN_EQUAL 10; token QL_OP_GREATER_THAN_EQUAL 5;
     token QL_OP_LESS_THAN 20] (on_entry new_read_request)
  = Continue
      (on_entry (set_max_hash_code 20 (set_hash_code 5 new_read_request)))
  /\ hash_code (set_max_hash_code 20 (set_hash_code 5 new_read_request))
     = Some 5.
Proof.
  split; [reflexivity|].
  refine (proj1 (last_token_bound_wins (X := collaborators)
                   [token QL_OP_GREATER_THAN_EQUAL 10]
                   [token QL_OP_LESS_THAN 20]
                   (token QL_OP_GREATER_THAN_EQUAL 5) 5
                   (on_entry new_read_request)
                   (on_entry (set_hash_code 10 new_read_request))
                   (on_entry
                      (set_max_hash_code 20 (set_hash_code 5 new_read_request)))
                   eq_refl (token_folds QL_OP_GREATER_THAN_EQUAL 5) eq_refl)
            5 eq_refl _).
  repeat constructor.
Defined.

Lemma IN_without_list_declares_empty_witness :
  read [col h1 QL_OP_IN (Const 7)] [] [] [] []
  = Returned OK
      {| req := {| hashed_column_values := [value (int64_value 7)];
                   hash_code := None; max_hash_code := None;
                   where_expr := None |};
         no_results := true |}.
Proof.
  refine (IN_without_list_declares_empty (X := collaborators) new_read_request
            [] [] [] (col h1 QL_OP_IN (Const 7)) [] [] []
            (on_entry new_read_request) (on_entry new_read_request)
            (value (int64_value 7)) eq_refl eq_refl eq_refl eq_refl eq_refl _).
  intros elems H. discriminate.
Defined.

Lemma read_key_lowering_failure_witness :
  read [col h1 QL_OP_EQUAL (Const 1); col h2 QL_OP_IN (BindVar 0);
        col r1 QL_OP_EQUAL (Const 2)] [] [] [] []
  = Returned (NotOK "Bind variable has no value")
      {| req := {| hashed_column_values := [value (int64_value 1); bind_id 0];
                   hash_code := None; max_hash_code := None;
                   where_expr := None |};
         no_results := false |}.
Proof.
  exact (proj1 (read_key_lowering_failure (X := collaborators)
                  new_read_request [col h1 QL_OP_EQUAL (Const 1)]
                  [col r1 QL_OP_EQUAL (Const 2)] []
                  (col h2 QL_OP_IN (BindVar 0)) [] [] []
                  (on_entry new_read_request)
                  (on_entry
                     (add_hashed_column_values (value (int64_value 1))
                        new_read_request))
                  (NotOK "Bind variable has no value") (bind_id 0)
                  eq_refl eq_refl eq_refl eq_refl eq_refl)).
Defined.

Lemma failing_column_op_stops_residual_witness :
  read [] [col r1 QL_OP_LESS_THAN (BindVar 0)]
    [@Build_SubscriptedColumnOp collaborators c1 [Const 2] QL_OP_EQUAL
       (Const 5)] []
    [@Build_FuncOp collaborators (Const 1) (TokenCall 1) QL_OP_EQUAL]
  = read [] [col r1 QL_OP_LESS_THAN (BindVar 0)] [] [] [].
Proof.
  refine (failing_column_op_stops_residual (X := collaborators)
            new_read_request [] [col r1 QL_OP_LESS_THAN (BindVar 0)]
            [@Build_SubscriptedColumnOp collaborators c1 [Const 2] QL_OP_EQUAL
               (Const 5)] []
            [@Build_FuncOp collaborators (Const 1) (TokenCall 1) QL_OP_EQUAL]
            _).
  apply Exists_cons_hd. intros H. discriminate.
Defined.
